(** * AIPortfolio: retrieval pipeline and question-answering routes

    The development embeds three JavaScript modules shallowly:
    the frontend route ([POST], first part of
    [src/frontend/app/api/chat/route.js]), the retrieval pipeline that
    follows it in the same file and that the backend imports as
    [./embedding.js], and the backend route of [src/backend/api-server.js].

    - A JavaScript string is the list of its UTF-16 code units
      ([jsstring]); [length] is then the [.length] of the source.
    - The external services (file system, vector store, embedding and
      generation services, document parser, clock, HTTP hop between the two
      routes) are a record of state-passing functions over an arbitrary
      world type; each may return or throw.
    - [async]/[await] code runs sequentially here, as every call of the
      source is awaited before the next one is made.
    - Every call of a fallible external service is recorded, with its
      outcome, in a trace of events.  Console output is not part of the
      model.
    - A distance returned by the vector store is a finite double, hence a
      rational number. *)

From Stdlib Require Import Strings.String Strings.Ascii.
From Stdlib Require Import Numbers.DecimalString.
From Stdlib Require Import Arith ZArith NArith QArith Lia Bool.
From Stdlib Require Import Sorting.Sorted Sorting.Permutation.
From Stdlib Require Import List.
Import ListNotations.
Close Scope Q_scope.
Open Scope nat_scope.
Open Scope list_scope.

Set Implicit Arguments.

(* ================================================================== *)
(** ** JavaScript strings *)
(* ================================================================== *)

Module JS.

(** A string is its sequence of UTF-16 code units. *)
Definition jsstring := list N.

(** Literals: the code units of an ASCII text. *)
Definition js (s : string) : jsstring :=
  map N_of_ascii (list_ascii_of_string s).
Arguments js s%_string.

(** [===] on two strings. *)
Fixpoint jseqb (a b : jsstring) : bool :=
  match a, b with
  | [], [] => true
  | x :: a', y :: b' => N.eqb x y && jseqb a' b'
  | _, _ => false
  end.

(** Code units of the separators used by the source. *)
Definition SPACE : N := 32.
Definition NEWLINE : N := 10.
Definition PIPE : N := 124.
Definition UNDERSCORE : N := 95.
Definition DOT : N := 46.
Definition SLASH : N := 47.

(** [s.split(c)] for a one-character separator: never an empty array,
    and adjacent separators give empty pieces. *)
Fixpoint split (c : N) (s : jsstring) : list jsstring :=
  match s with
  | [] => [[]]
  | x :: r =>
      if N.eqb x c then [] :: split c r
      else match split c r with
           | [] => [[x]]
           | w :: ws => (x :: w) :: ws
           end
  end.

(** [a.join(sep)]. *)
Fixpoint join (sep : jsstring) (l : list jsstring) : jsstring :=
  match l with
  | [] => []
  | [w] => w
  | w :: ws => w ++ sep ++ join sep ws
  end.

(** [a.slice(-i)] for an integer [i >= 0]: the last [i] elements, all of
    them when [i] exceeds the length, and the whole array for [-0]. *)
Definition slice_last {A} (i : nat) (l : list A) : list A :=
  if Nat.eqb i 0 then l else skipn (length l - i) l.

(** [a.slice(0, i)] for an integer [i >= 0]. *)
Definition slice_first {A} (i : nat) (l : list A) : list A := firstn i l.

(** [a.slice(0, e)] for any integer [e]: a negative end counts from the
    end of the array. *)
Definition slice0 {A} (e : Z) (l : list A) : list A :=
  let len := Z.of_nat (length l) in
  let k := if (e <? 0)%Z then Z.max (len + e) 0 else Z.min e len in
  firstn (Z.to_nat k) l.

(** White space and line terminators removed by [String.prototype.trim]. *)
Definition is_ws (c : N) : bool :=
  (N.leb 9 c && N.leb c 13) || N.eqb c 32 || N.eqb c 160 || N.eqb c 5760
  || (N.leb 8192 c && N.leb c 8202) || N.eqb c 8232 || N.eqb c 8233
  || N.eqb c 8239 || N.eqb c 8287 || N.eqb c 12288 || N.eqb c 65279.

Fixpoint trim_start (s : jsstring) : jsstring :=
  match s with
  | [] => []
  | c :: r => if is_ws c then trim_start r else s
  end.

Definition trim (s : jsstring) : jsstring :=
  rev (trim_start (rev (trim_start s))).

(** Decimal rendering of a non-negative integer, as a template literal
    renders an array index or a length. *)
Definition dec (n : nat) : jsstring :=
  js (NilZero.string_of_uint (Nat.to_uint n)).

(** A value that may be [undefined]/[null] or a string: truthiness. *)
Definition truthy (v : option jsstring) : bool :=
  match v with
  | Some (_ :: _) => true
  | _ => false
  end.

(** [a || b] on such values. *)
Definition or_else (a b : option jsstring) : option jsstring :=
  if truthy a then a else b.

End JS.
Import JS.

(* ================================================================== *)
(** ** Chunk overlap detector: [findTextOverlap] *)
(* ================================================================== *)

(** One turn of the [for] loop of [findTextOverlap], at window size [i]. *)
Definition overlapStep (words1 words2 : list jsstring)
           (maxOverlap : jsstring) (i : nat) : jsstring :=
  let ending := join [SPACE] (slice_last i words1) in
  let beginning := join [SPACE] (slice_first i words2) in
  if jseqb ending beginning && Nat.ltb (length maxOverlap) (length ending)
  then ending else maxOverlap.

Definition findTextOverlap (text1 text2 : jsstring) : jsstring :=
  let words1 := split SPACE text1 in
  let words2 := split SPACE text2 in
  fold_left (overlapStep words1 words2)
            (seq 1 (Nat.min (length words1) (length words2))) [].

(* ================================================================== *)
(** ** Data model *)
(* ================================================================== *)

(** A thrown value. *)
Inductive JsError := Err (message : jsstring).

(** The outcome of a call: a value, or a thrown error. *)
Inductive Result (A : Type) :=
| Ok (a : A)
| Throw (e : JsError).
Arguments Ok {A} a.
Arguments Throw {A} e.

Definition is_ok {A} (r : Result A) : bool :=
  match r with Ok _ => true | Throw _ => false end.

Definition value_of {A} (r : Result A) : option A :=
  match r with Ok a => Some a | Throw _ => None end.

(** An embedding vector; a finite double is a rational number. *)
Definition Embedding := list Q.

(** A chunk as the parser returns it: the [text] property and the value
    of [getText()], either of which may be [undefined]. *)
Record Document := {
  text : option jsstring;
  getText : option jsstring
}.

(** The metadata object pushed by [processSinglePDF] for one chunk. *)
Record ChunkMetadata := {
  chunkIndex : nat;
  fileName : jsstring;
  totalChunksInFile : nat;
  wordCount : nat;
  previousChunk : jsstring;
  nextChunk : jsstring;
  hasOverlap : bool;
  overlapWith : jsstring;
  overlapLength : nat;
  source : jsstring
}.

(** The local [overlapInfo] object of [processSinglePDF]. *)
Record OverlapInfo := {
  withChunk : jsstring;
  info_overlapLength : nat
}.

(** The argument of [collection.add]. *)
Record AddRequest := {
  add_ids : list jsstring;
  add_metadatas : list ChunkMetadata;
  add_documents : list jsstring;
  add_embeddings : list Embedding
}.

(** A handle on a vector collection, as [createCollection] and
    [getCollection] return it. *)
Definition Collection := jsstring.

(** One row of a query response: [documents[0][index]],
    [distances[0][index]] and [metadatas[0][index]], which the vector
    store returns as parallel arrays.  A distance is a finite double. *)
Record Hit := {
  hit_document : jsstring;
  hit_distance : Q;
  hit_metadata : ChunkMetadata
}.

(** The response of [collection.query]: [None] when [results.documents]
    is absent, else the rows of [results.documents[0]]. *)
Definition QueryResponse := option (list Hit).

(** A line of the registry as [loadCollectionNames] returns it; [source]
    is [undefined] when the line has no [|]. *)
Record CollectionInfo := {
  name : jsstring;
  info_source : option jsstring
}.

(** An element of the array returned by [searchAllCollections]. *)
Record SearchResult := {
  document : jsstring;
  distance : Q;
  metadata : ChunkMetadata;
  result_source : option jsstring;
  collection : jsstring
}.

(** The value of the [question] property of a request body. *)
Inductive JsValue :=
| JUndefined
| JNull
| JBool (b : bool)
| JNumber (q : Q)
| JString (s : jsstring)
| JObject.

(** A request, by what reading its body gives the handler.  [BadJson]:
    there is no value to read (at the frontend route [request.json()]
    rejects a body that is not valid JSON; at the backend route [req.body]
    is [undefined]).  [NullJson]: the body is the JSON value [null].
    [Body question]: the body is any other value, and [question] is its
    property of that name, [undefined] when it has none. *)
Inductive Request :=
| BadJson
| NullJson
| Body (question : JsValue).

Inductive ResponseBody :=
| ErrorBody (error : jsstring)
| AnswerBody (answer : jsstring)
| ResponseOf (response : jsstring).

Record HttpResponse := {
  status : Z;
  body : ResponseBody
}.

(** Every call of an external service, with its outcome. *)
Inductive Event :=
| EvMkdir (path : jsstring) (ok : bool)
| EvAppend (path entry : jsstring) (ok : bool)
| EvRead (path : jsstring) (ok : bool)
| EvUnlink (path : jsstring) (ok : bool)
| EvReaddir (path : jsstring) (ok : bool)
| EvStat (path : jsstring) (ok : bool)
| EvCreateCollection (nm : jsstring) (ok : bool)
| EvGetCollection (nm : jsstring) (ok : bool)
| EvAdd (c : Collection) (req : AddRequest) (ok : bool)
| EvQuery (c : Collection) (queryEmbedding : Embedding) (nResults : Z)
          (ok : bool)
| EvEmbed (input : jsstring) (embedding : option Embedding)
| EvGenerate (systemPrompt userQuestion : jsstring)
             (content : option jsstring)
| EvLoadData (path : jsstring) (ok : bool)
| EvFetch (question : jsstring) (ok : bool).

(** The external services, over a world [W] that they read and change.
    The pure functions of the runtime ([path], [toLowerCase]) and the
    fixed text of the system prompt around [contextText] come with
    them. *)
Record Services (W : Type) := {
  existsSync : jsstring -> W -> bool * W;
  mkdirSync : jsstring -> W -> Result unit * W;
  appendFileSync : jsstring -> jsstring -> W -> Result unit * W;
  readFileSync : jsstring -> W -> Result jsstring * W;
  unlinkSync : jsstring -> W -> Result unit * W;
  readdirSync : jsstring -> W -> Result (list jsstring) * W;
  statIsDirectory : jsstring -> W -> Result bool * W;
  path_join : jsstring -> jsstring -> jsstring;
  path_basename : jsstring -> jsstring;
  toLowerCase : jsstring -> jsstring;
  (** [Date.now()], rendered in decimal *)
  date_now : W -> jsstring * W;
  (** [Math.random().toString(36).substring(2, 8)] *)
  random_suffix : W -> jsstring * W;
  createCollection : jsstring -> W -> Result Collection * W;
  getCollection : jsstring -> W -> Result Collection * W;
  collection_add : Collection -> AddRequest -> W -> Result unit * W;
  collection_query :
    Collection -> Embedding -> Z -> W -> Result QueryResponse * W;
  (** [openai.embeddings.create(...)] followed by [.data[0].embedding] *)
  embeddings_create : jsstring -> W -> Result Embedding * W;
  (** [openai.chat.completions.create(...)] followed by
      [.choices[0].message.content] *)
  chat_create : jsstring -> jsstring -> W -> Result jsstring * W;
  loadData : jsstring -> W -> Result (list Document) * W;
  (** the HTTP hop from the frontend route to port 3001 *)
  http_hop : W -> Result unit * W;
  prompt_head : jsstring;
  prompt_tail : jsstring
}.

(** The state threaded through the program: the world and the trace. *)
Record St (W : Type) := {
  world : W;
  trace : list Event
}.

(* ================================================================== *)
(** ** The monad of the program: state and exceptions *)
(* ================================================================== *)

Definition M (W A : Type) := St W -> Result A * St W.

Definition ret {W A} (a : A) : M W A := fun st => (Ok a, st).

Definition throw {W A} (e : JsError) : M W A := fun st => (Throw e, st).

Definition bind {W A B} (m : M W A) (k : A -> M W B) : M W B :=
  fun st =>
    match m st with
    | (Ok a, st') => k a st'
    | (Throw e, st') => (Throw e, st')
    end.

(** [try { m } catch (error) { h error }]: the state reached when the
    error is thrown is kept. *)
Definition try_catch {W A} (m : M W A) (h : JsError -> M W A) : M W A :=
  fun st =>
    match m st with
    | (Ok a, st') => (Ok a, st')
    | (Throw e, st') => h e st'
    end.

Declare Scope js_scope.
Delimit Scope js_scope with js.
Notation "x <- m ;; k" := (bind m (fun x => k))
  (at level 100, m at next level, right associativity) : js_scope.
Notation "m ;;; k" := (bind m (fun _ => k))
  (at level 100, right associativity) : js_scope.
Open Scope js_scope.

(** A call of a fallible service, recorded in the trace. *)
Definition call {W A} (ev : Result A -> Event)
           (f : W -> Result A * W) : M W A :=
  fun st =>
    let (r, w) := f (world st) in
    (r, {| world := w; trace := trace st ++ [ev r] |}).

(** A call of a service that cannot throw. *)
Definition ask {W A} (f : W -> A * W) : M W A :=
  fun st =>
    let (a, w) := f (world st) in
    (Ok a, {| world := w; trace := trace st |}).

(** A [for] loop that threads an accumulator. *)
Fixpoint foldM {W A B} (f : A -> B -> M W A) (l : list B) (a : A)
  : M W A :=
  match l with
  | [] => ret a
  | b :: l' => a' <- f a b ;; foldM f l' a'
  end.

(** [TypeError]s of the runtime; the text of their message is the
    engine's, and [TypeError] stands for it. *)
Definition TypeError : JsError := Err (js "TypeError").
Definition RangeError : JsError := Err (js "RangeError").

(** [a.sort(cmp)]: the sort is stable, so for a comparator that is a
    difference of finite numbers the result is the one insertion in
    array order gives. *)
Definition negative (q : Q) : bool := negb (Qle_bool 0 q).

Fixpoint sort_insert {A} (cmp : A -> A -> Q) (x : A) (l : list A)
  : list A :=
  match l with
  | [] => [x]
  | y :: l' =>
      if negative (cmp x y) then x :: y :: l'
      else y :: sort_insert cmp x l'
  end.

Definition sort {A} (cmp : A -> A -> Q) (l : list A) : list A :=
  fold_left (fun sorted x => sort_insert cmp x sorted) l [].

(** [a.map((x, index) => f x index)]. *)
Fixpoint mapi_from {A B} (i : nat) (f : A -> nat -> B) (l : list A)
  : list B :=
  match l with
  | [] => []
  | x :: l' => f x i :: mapi_from (S i) f l'
  end.

Definition mapi {A B} (f : A -> nat -> B) (l : list A) : list B :=
  mapi_from 0 f l.

(** [fileName.replace(/\.[^/.]+$/, "")]: a final dot followed by one or
    more characters other than [/] and [.] is removed. *)
Fixpoint ext_scan (rev_name : jsstring) (seen : nat) : option jsstring :=
  match rev_name with
  | [] => None
  | c :: r =>
      if N.eqb c DOT then (if Nat.eqb seen 0 then None else Some r)
      else if N.eqb c SLASH then None
      else ext_scan r (S seen)
  end.

Definition strip_extension (fileName : jsstring) : jsstring :=
  match ext_scan (rev fileName) 0 with
  | Some r => rev r
  | None => fileName
  end.

(** Template literal rendering of a value that may be [undefined]. *)
Definition render (v : option jsstring) : jsstring :=
  match v with
  | Some s => s
  | None => js "undefined"
  end.

(* ================================================================== *)
(** ** [embedding.js] *)
(* ================================================================== *)

Section Pipeline.

Variable W : Type.
Variable env : Services W.

Definition generateCollectionName (prefix : jsstring) : M W jsstring :=
  timestamp <- ask (date_now env) ;;
  random <- ask (random_suffix env) ;;
  ret (prefix ++ js "_" ++ timestamp ++ js "_" ++ random).

Definition collectionsFile : jsstring :=
  path_join env (js "app") (js "collections.txt").

Definition saveCollectionName (collectionName src : jsstring) : M W unit :=
  let entry := collectionName ++ js "|" ++ src ++ [NEWLINE] in
  try_catch
    (found <- ask (existsSync env (js "app")) ;;
     (if negb found
      then call (fun r => EvMkdir (js "app") (is_ok r))
                (mkdirSync env (js "app"))
      else ret tt) ;;;
     call (fun r => EvAppend collectionsFile entry (is_ok r))
          (appendFileSync env collectionsFile entry))
    (fun _ => ret tt).

(** The arrow function mapped over the lines by [loadCollectionNames]. *)
Definition parseLine (line : jsstring) : CollectionInfo :=
  match split PIPE line with
  | n :: s :: _ => {| name := n; info_source := Some s |}
  | [n] => {| name := n; info_source := None |}
  | [] => {| name := []; info_source := None |}
  end.

Definition loadCollectionNames : M W (list CollectionInfo) :=
  try_catch
    (found <- ask (existsSync env collectionsFile) ;;
     if negb found then ret []
     else
       content <- call (fun r => EvRead collectionsFile (is_ok r))
                       (readFileSync env collectionsFile) ;;
       let lines :=
         filter (fun line => negb (jseqb (trim line) []))
                (split NEWLINE (trim content)) in
       ret (map parseLine lines))
    (fun _ => ret []).

Definition clearCollectionsFile : M W unit :=
  try_catch
    (found <- ask (existsSync env collectionsFile) ;;
     if found
     then call (fun r => EvUnlink collectionsFile (is_ok r))
               (unlinkSync env collectionsFile)
     else ret tt)
    (fun _ => ret tt).

Definition createEmbedding (txt : jsstring) : M W Embedding :=
  try_catch
    (call (fun r => EvEmbed txt (value_of r))
          (embeddings_create env txt))
    (fun error => throw error).

(** [doc.text || doc.getText()]. *)
Definition chunkTextOf (doc : Document) : option jsstring :=
  or_else (text doc) (getText doc).

(** The [source] computed at the head of [processSinglePDF]. *)
Definition sourceLabel (fileName : jsstring) : jsstring :=
  let splitFileName := split UNDERSCORE fileName in
  if Nat.ltb 1 (length splitFileName)
  then toLowerCase env (hd [] splitFileName)
  else toLowerCase env fileName.

(** The constant [overlap] of the loop body, when the two guards
    [i > 0] and [prevText] let the body reach it. *)
Definition detectOverlap (documents : list Document) (i : nat)
           (chunkText : jsstring) : option jsstring :=
  if Nat.ltb 0 i then
    match nth_error documents (i - 1) with
    | Some prev =>
        match chunkTextOf prev with
        | Some (c :: prevText) =>
            Some (findTextOverlap (c :: prevText) chunkText)
        | _ => None
        end
    | None => None
    end
  else None.

(** The variable [overlapInfo] after the [if (i > 0)] block. *)
Definition overlapInfoOf (documents : list Document) (i : nat)
           (chunkText : jsstring) : option OverlapInfo :=
  match detectOverlap documents i chunkText with
  | Some overlap =>
      if Nat.ltb 20 (length overlap)
      then Some {| withChunk := js "chunk_" ++ dec (i - 1);
                   info_overlapLength := length overlap |}
      else None
  | None => None
  end.

(** The object pushed on [metadatas]. *)
Definition chunkMetadata (file src : jsstring)
           (documents : list Document) (i : nat) (chunkText : jsstring)
  : ChunkMetadata :=
  let overlapInfo := overlapInfoOf documents i chunkText in
  {| chunkIndex := i;
     fileName := file;
     totalChunksInFile := length documents;
     wordCount := length (split SPACE chunkText);
     previousChunk :=
       if Nat.ltb 0 i then js "chunk_" ++ dec (i - 1) else [];
     nextChunk :=
       if Nat.ltb i (length documents - 1)
       then js "chunk_" ++ dec (i + 1) else [];
     hasOverlap :=
       match overlapInfo with Some _ => true | None => false end;
     overlapWith :=
       match overlapInfo with Some o => withChunk o | None => [] end;
     overlapLength :=
       match overlapInfo with
       | Some o => info_overlapLength o
       | None => 0
       end;
     source := src |}.

(** The four arrays filled by the loop. *)
Record Arrays := {
  ids : list jsstring;
  metadatas : list ChunkMetadata;
  docTexts : list jsstring;
  embeddings : list Embedding
}.

Definition noArrays : Arrays :=
  {| ids := []; metadatas := []; docTexts := []; embeddings := [] |}.

(** [!chunkText || chunkText.trim().length === 0]. *)
Definition skipped (chunkText : option jsstring) : bool :=
  match chunkText with
  | Some (c :: r) => Nat.eqb (length (trim (c :: r))) 0
  | _ => true
  end.

(** One turn of the loop over the chunks, at index [i]. *)
Definition chunkStep (file src : jsstring) (documents : list Document)
           (acc : Arrays) (i : nat) : M W Arrays :=
  match nth_error documents i with
  | None => throw TypeError
  | Some doc =>
      match chunkTextOf doc with
      | Some chunkText =>
          if skipped (Some chunkText) then ret acc
          else
            embedding <- createEmbedding chunkText ;;
            ret {| ids := ids acc ++ [js "chunk_" ++ dec i];
                   metadatas :=
                     metadatas acc
                     ++ [chunkMetadata file src documents i chunkText];
                   docTexts := docTexts acc ++ [chunkText];
                   embeddings := embeddings acc ++ [embedding] |}
      | None => ret acc
      end
  end.

Definition processChunks (file src : jsstring)
           (documents : list Document) : M W Arrays :=
  foldM (chunkStep file src documents)
        (seq 0 (length documents)) noArrays.

(** [null] is [None]. *)
Definition processSinglePDF (filePath : jsstring) : M W (option jsstring) :=
  try_catch
    (let file := path_basename env filePath in
     let src := sourceLabel file in
     collectionName <-
       generateCollectionName (js "doc_" ++ strip_extension file) ;;
     coll <- call (fun r => EvCreateCollection collectionName (is_ok r))
                  (createCollection env collectionName) ;;
     documents <- call (fun r => EvLoadData filePath (is_ok r))
                       (loadData env filePath) ;;
     acc <- processChunks file src documents ;;
     (if Nat.ltb 0 (length (ids acc)) then
        let req := {| add_ids := ids acc;
                      add_metadatas := metadatas acc;
                      add_documents := docTexts acc;
                      add_embeddings := embeddings acc |} in
        call (fun r => EvAdd coll req (is_ok r))
             (collection_add env coll req) ;;;
        saveCollectionName collectionName (js "document:" ++ file)
      else ret tt) ;;;
     ret (Some collectionName))
    (fun _ => ret None).

Definition processAllPDFs (files : list jsstring) : M W (list jsstring) :=
  foldM (fun collectionNames filePath =>
           collectionName <- processSinglePDF filePath ;;
           match collectionName with
           | Some (c :: r) => ret (collectionNames ++ [c :: r])
           | _ => ret collectionNames
           end)
        files [].

(** [getAllFiles]; [depth] bounds the nesting of the calls, as the call
    stack does, and exceeding it throws. *)
Fixpoint getAllFiles (depth : nat) (dirPath : jsstring)
  : M W (list jsstring) :=
  match depth with
  | 0 => throw RangeError
  | S depth' =>
      files <- call (fun r => EvReaddir dirPath (is_ok r))
                    (readdirSync env dirPath) ;;
      foldM (fun filePaths file =>
               let filePath := path_join env dirPath file in
               isDir <- call (fun r => EvStat filePath (is_ok r))
                             (statIsDirectory env filePath) ;;
               if isDir : bool
               then sub <- getAllFiles depth' filePath ;;
                    ret (filePaths ++ sub)
               else ret (filePaths ++ [filePath]))
            files []
  end.

(** The body of the inner [try] of [searchAllCollections], one
    collection: the results to push on [allResults]. *)
Definition queryCollection (query : jsstring) (topK : Z)
           (collectionInfo : CollectionInfo) : M W (list SearchResult) :=
  coll <- call (fun r => EvGetCollection (name collectionInfo) (is_ok r))
               (getCollection env (name collectionInfo)) ;;
  queryEmbedding <- createEmbedding query ;;
  results <- call (fun r => EvQuery coll queryEmbedding topK (is_ok r))
                  (collection_query env coll queryEmbedding topK) ;;
  match results with
  | Some (h :: hs) =>
      ret (map (fun hit =>
                  {| document := hit_document hit;
                     distance := hit_distance hit;
                     metadata := hit_metadata hit;
                     result_source := info_source collectionInfo;
                     collection := name collectionInfo |})
               (h :: hs))
  | _ => ret []
  end.

Definition searchLoop (query : jsstring) (topK : Z)
           (collections : list CollectionInfo) : M W (list SearchResult) :=
  foldM (fun allResults collectionInfo =>
           try_catch
             (resultsWithSource <-
                queryCollection query topK collectionInfo ;;
              ret (allResults ++ resultsWithSource))
             (fun _ => ret allResults))
        collections [].

Definition searchAllCollections (query : jsstring) (topK : Z)
  : M W (list SearchResult) :=
  try_catch
    (collections <- loadCollectionNames ;;
     allResults <- searchLoop query topK collections ;;
     let sorted :=
       sort (fun a b => (distance a - distance b)%Q) allResults in
     ret (slice0 (topK * 2) sorted))
    (fun error => throw error).

(** The [contextText] of [generateResponse]. *)
Definition contextText (relevantResults : list SearchResult) : jsstring :=
  if Nat.ltb 0 (length relevantResults) then
    join [NEWLINE; NEWLINE]
         (mapi (fun result index =>
                  js "Source " ++ dec (index + 1) ++ js " ("
                  ++ render (result_source result) ++ js "):"
                  ++ [NEWLINE] ++ document result)
               relevantResults)
  else [].

Definition generateResponse (userQuestion : jsstring)
           (relevantResults : list SearchResult) : M W jsstring :=
  try_catch
    (let systemPrompt :=
       prompt_head env ++ contextText relevantResults ++ prompt_tail env in
     call (fun r => EvGenerate systemPrompt userQuestion (value_of r))
          (chat_create env systemPrompt userQuestion))
    (fun error => throw error).

Definition notFoundMessage : jsstring :=
  js "I couldn't find relevant information in the portfolio documents to answer your question.".

Definition apologyMessage : jsstring :=
  js "I'm sorry, I encountered an error while processing your question.".

(** The default value of [topK]. *)
Definition defaultTopK : Z := 3.

Definition handleUserQuestion (question : jsstring) : M W jsstring :=
  try_catch
    (searchResults <- searchAllCollections question defaultTopK ;;
     if Nat.eqb (length searchResults) 0 then ret notFoundMessage
     else generateResponse question searchResults)
    (fun _ => ret apologyMessage).

Definition initialize (depth : nat) : M W unit :=
  clearCollectionsFile ;;;
  files <- getAllFiles depth (js "./doc") ;;
  processAllPDFs files ;;;
  ret tt.

(* ---------------------------------------------------------------- *)
(** ** [api-server.js] and [route.js] *)
(* ---------------------------------------------------------------- *)

(** [!v]. *)
Definition falsy (v : JsValue) : bool :=
  match v with
  | JUndefined | JNull => true
  | JBool b => negb b
  | JNumber q => Qeq_bool q 0
  | JString s => Nat.eqb (length s) 0
  | JObject => false
  end.

(** [typeof v !== "string"]. *)
Definition not_a_string (v : JsValue) : bool :=
  match v with
  | JString _ => false
  | _ => true
  end.

(** The handler of [app.post('/api/ask')]; a [req.body] that is
    [undefined] or [null] makes the destructuring throw. *)
Definition api_ask (req : Request) : M W HttpResponse :=
  try_catch
    (match req with
     | BadJson | NullJson => throw TypeError
     | Body question =>
         if falsy question || not_a_string question
         then ret {| status := 400;
                     body := ErrorBody (js "Question is required.") |}
         else
           match question with
           | JString q =>
               answer <- handleUserQuestion q ;;
               ret {| status := 200; body := AnswerBody answer |}
           | _ => throw TypeError
           end
     end)
    (fun error =>
       ret {| status := 500;
              body := ErrorBody
                        (match error with
                         | Err [] => js "Internal server error"
                         | Err m => m
                         end) |}).

(** [fetch('http://localhost:3001/api/ask', ...)]: when the hop
    succeeds, the request is answered by the handler above. *)
Definition fetch_api_ask (question : jsstring) : M W HttpResponse :=
  call (fun r => EvFetch question (is_ok r)) (http_hop env) ;;;
  api_ask (Body (JString question)).

(** [data.answer || '']. *)
Definition rawAnswerOf (data : ResponseBody) : jsstring :=
  match data with
  | AnswerBody a => a
  | _ => []
  end.

(** The [POST] handler of the frontend route; [request.json()] throws on
    a body that is not valid JSON, and the destructuring throws on
    [null]. *)
Definition POST (request : Request) : M W HttpResponse :=
  try_catch
    (match request with
     | BadJson | NullJson => throw TypeError
     | Body question =>
         if falsy question
         then ret {| status := 400;
                     body := ErrorBody (js "Question is required") |}
         else
           match question with
           | JString q =>
               if jseqb (trim q) []
               then ret {| status := 400;
                           body := ErrorBody (js "Question is required") |}
               else
                 apiResponse <- fetch_api_ask q ;;
                 if negb ((200 <=? status apiResponse)%Z
                          && (status apiResponse <=? 299)%Z)
                 then throw (Err (js "API responded with status"))
                 else
                   let rawAnswer := rawAnswerOf (body apiResponse) in
                   ret {| status := 200; body := ResponseOf rawAnswer |}
           | _ => throw TypeError
           end
     end)
    (fun _ =>
       ret {| status := 500;
              body := ErrorBody (js "Internal server error") |}).

End Pipeline.

Arguments generateCollectionName {W} env prefix.
Arguments collectionsFile {W} env.
Arguments saveCollectionName {W} env collectionName src.
Arguments loadCollectionNames {W} env.
Arguments clearCollectionsFile {W} env.
Arguments createEmbedding {W} env txt.
Arguments sourceLabel {W} env fileName.
Arguments chunkStep {W} env file src documents acc i.
Arguments processChunks {W} env file src documents.
Arguments processSinglePDF {W} env filePath.
Arguments processAllPDFs {W} env files.
Arguments getAllFiles {W} env depth dirPath.
Arguments queryCollection {W} env query topK collectionInfo.
Arguments searchLoop {W} env query topK collections.
Arguments searchAllCollections {W} env query topK.
Arguments generateResponse {W} env userQuestion relevantResults.
Arguments handleUserQuestion {W} env question.
Arguments initialize {W} env depth.
Arguments api_ask {W} env req.
Arguments fetch_api_ask {W} env question.
Arguments POST {W} env request.

(** Running a program from a world, with an empty trace. *)
Definition run {W A} (m : M W A) (w : W) : Result A * St W :=
  m {| world := w; trace := [] |}.

(** The events a program adds to the trace of the state it starts in. *)
Definition events {W A} (m : M W A) (st : St W) : list Event :=
  skipn (length (trace st)) (trace (snd (m st))).

(* ================================================================== *)
(** ** A simulated world, to run the program on concrete inputs *)
(* ================================================================== *)

Module Sim.

(** The registry file, a flat [./doc] directory, a parser that returns
    the same chunks for every file, a vector store that returns the same
    rows for every query, and switches that make a service throw. *)
Record World := {
  registryFile : option jsstring;
  appDir : bool;
  docFiles : list jsstring;
  parsed : list Document;
  rows : list Hit;
  missing : list jsstring;
  unlinkThrows : bool;
  appendThrows : bool;
  embedThrows : bool;
  hopThrows : bool;
  ticks : nat
}.

Definition posix_join (a b : jsstring) : jsstring :=
  match a ++ js "/" ++ b with
  | 46%N :: 47%N :: r => r
  | p => p
  end.

Definition posix_basename (p : jsstring) : jsstring :=
  last (split SLASH p) [].

Definition ascii_lower (s : jsstring) : jsstring :=
  map (fun c => if N.leb 65 c && N.leb c 90 then (c + 32)%N else c) s.

Definition registryPath : jsstring := js "app/collections.txt".

Definition EACCES : JsError := Err (js "EACCES: permission denied").
Definition ENOENT : JsError := Err (js "ENOENT: no such file or directory").
Definition Unreachable : JsError := Err (js "fetch failed").
Definition NotFound : JsError := Err (js "collection not found").
Definition RateLimit : JsError := Err (js "429 rate limit").

Definition sim_exists (p : jsstring) (w : World) : bool * World :=
  if jseqb p registryPath
  then (match registryFile w with Some _ => true | None => false end, w)
  else if jseqb p (js "app") then (appDir w, w)
  else (false, w).

Definition sim_mkdir (p : jsstring) (w : World) : Result unit * World :=
  (Ok tt,
   {| registryFile := registryFile w; appDir := true;
      docFiles := docFiles w; parsed := parsed w; rows := rows w;
      missing := missing w; unlinkThrows := unlinkThrows w;
      appendThrows := appendThrows w; embedThrows := embedThrows w;
      hopThrows := hopThrows w; ticks := ticks w |}).

Definition set_registry (f : option jsstring) (w : World) : World :=
  {| registryFile := f; appDir := appDir w;
     docFiles := docFiles w; parsed := parsed w; rows := rows w;
     missing := missing w; unlinkThrows := unlinkThrows w;
     appendThrows := appendThrows w; embedThrows := embedThrows w;
     hopThrows := hopThrows w; ticks := ticks w |}.

Definition sim_append (p entry : jsstring) (w : World)
  : Result unit * World :=
  if appendThrows w then (Throw EACCES, w)
  else
    (Ok tt,
     set_registry
       (Some (match registryFile w with
              | Some c => c ++ entry
              | None => entry
              end)) w).

Definition sim_read (p : jsstring) (w : World) : Result jsstring * World :=
  match registryFile w with
  | Some c => (Ok c, w)
  | None => (Throw ENOENT, w)
  end.

Definition sim_unlink (p : jsstring) (w : World) : Result unit * World :=
  if unlinkThrows w then (Throw EACCES, w)
  else (Ok tt, set_registry None w).

Definition sim_readdir (p : jsstring) (w : World)
  : Result (list jsstring) * World :=
  if jseqb p (js "./doc") then (Ok (docFiles w), w) else (Ok [], w).

Definition sim_now (w : World) : jsstring * World :=
  (dec (ticks w),
   {| registryFile := registryFile w; appDir := appDir w;
      docFiles := docFiles w; parsed := parsed w; rows := rows w;
      missing := missing w; unlinkThrows := unlinkThrows w;
      appendThrows := appendThrows w; embedThrows := embedThrows w;
      hopThrows := hopThrows w; ticks := S (ticks w) |}).

Definition sim_getCollection (nm : jsstring) (w : World)
  : Result Collection * World :=
  if existsb (jseqb nm) (missing w) then (Throw NotFound, w)
  else (Ok nm, w).

Definition sim_embed (txt : jsstring) (w : World)
  : Result Embedding * World :=
  if embedThrows w then (Throw RateLimit, w)
  else (Ok [inject_Z (Z.of_nat (length txt))], w).

Definition services : Services World :=
  {| existsSync := sim_exists;
     mkdirSync := sim_mkdir;
     appendFileSync := sim_append;
     readFileSync := sim_read;
     unlinkSync := sim_unlink;
     readdirSync := sim_readdir;
     statIsDirectory := fun _ w => (Ok false, w);
     path_join := posix_join;
     path_basename := posix_basename;
     toLowerCase := ascii_lower;
     date_now := sim_now;
     random_suffix := fun w => (js "k3x9qa", w);
     createCollection := fun nm w => (Ok nm, w);
     getCollection := sim_getCollection;
     collection_add := fun _ _ w => (Ok tt, w);
     collection_query := fun _ _ _ w => (Ok (Some (rows w)), w);
     embeddings_create := sim_embed;
     chat_create := fun _ _ w => (Ok (js "I studied at Dalhousie."), w);
     loadData := fun _ w => (Ok (parsed w), w);
     http_hop :=
       fun w => if hopThrows w then (Throw Unreachable, w) else (Ok tt, w);
     prompt_head := js "You are an intelligent portfolio assistant. ";
     prompt_tail := js " Remember: respond as Jay Patel." |}.

(** The same services, with a [./doc] directory that cannot be listed. *)
Definition lockedServices : Services World :=
  {| existsSync := existsSync services;
     mkdirSync := mkdirSync services;
     appendFileSync := appendFileSync services;
     readFileSync := readFileSync services;
     unlinkSync := unlinkSync services;
     readdirSync := fun _ w => (Throw EACCES, w);
     statIsDirectory := statIsDirectory services;
     path_join := path_join services;
     path_basename := path_basename services;
     toLowerCase := toLowerCase services;
     date_now := date_now services;
     random_suffix := random_suffix services;
     createCollection := createCollection services;
     getCollection := getCollection services;
     collection_add := collection_add services;
     collection_query := collection_query services;
     embeddings_create := embeddings_create services;
     chat_create := chat_create services;
     loadData := loadData services;
     http_hop := http_hop services;
     prompt_head := prompt_head services;
     prompt_tail := prompt_tail services |}.

(** The same services, over a document directory that holds a
    sub-directory [cv], with one file, and a file [notes.txt]. *)
Definition treeServices : Services World :=
  {| existsSync := existsSync services;
     mkdirSync := mkdirSync services;
     appendFileSync := appendFileSync services;
     readFileSync := readFileSync services;
     unlinkSync := unlinkSync services;
     readdirSync :=
       fun p w =>
         if jseqb p (js "./doc") then (Ok [js "cv"; js "notes.txt"], w)
         else if jseqb p (js "doc/cv") then (Ok [js "resume.pdf"], w)
         else (Throw ENOENT, w);
     statIsDirectory := fun p w => (Ok (jseqb p (js "doc/cv")), w);
     path_join := path_join services;
     path_basename := path_basename services;
     toLowerCase := toLowerCase services;
     date_now := date_now services;
     random_suffix := random_suffix services;
     createCollection := createCollection services;
     getCollection := getCollection services;
     collection_add := collection_add services;
     collection_query := collection_query services;
     embeddings_create := embeddings_create services;
     chat_create := chat_create services;
     loadData := loadData services;
     http_hop := http_hop services;
     prompt_head := prompt_head services;
     prompt_tail := prompt_tail services |}.

(** A chunk whose [text] is the given string. *)
Definition chunk (s : string) : Document :=
  {| text := Some (js s); getText := Some (js s) |}.

End Sim.

(** A line of the registry for the record [(id, src)]. *)
Definition registryLine (id src : jsstring) : jsstring :=
  id ++ js "|" ++ src ++ [NEWLINE].

(* ================================================================== *)
(** ** Concrete runs *)
(* ================================================================== *)

Module Scenario.

Definition world (registry : option jsstring) (files : list jsstring)
           (chunks : list Document) (hits : list Hit)
           (gone : list jsstring)
           (unlinkT appendT embedT hopT : bool) : Sim.World :=
  {| Sim.registryFile := registry; Sim.appDir := true;
     Sim.docFiles := files; Sim.parsed := chunks; Sim.rows := hits;
     Sim.missing := gone; Sim.unlinkThrows := unlinkT;
     Sim.appendThrows := appendT; Sim.embedThrows := embedT;
     Sim.hopThrows := hopT; Sim.ticks := 1717 |}.

(** A registry of two collections. *)
Definition twoLines : jsstring :=
  registryLine (js "doc_cv_1_aaaaaa") (js "document:cv_jay.pdf")
  ++ registryLine (js "doc_projects_2_bbbbbb")
                  (js "document:projects.pdf").

(** A registry of one collection, left by an earlier ingestion. *)
Definition staleLine : jsstring :=
  registryLine (js "doc_old_0_zzzzzz") (js "document:old.pdf").

Definition row (s : string) (d : Q) : Hit :=
  {| hit_document := js s;
     hit_distance := d;
     hit_metadata :=
       chunkMetadata (js "cv_jay.pdf") (js "cv") [Sim.chunk s] 0 (js s) |}.

Definition rows : list Hit :=
  [row "MSc at Dalhousie" (7 # 10); row "BEng in Gujarat" (3 # 10);
   row "Intern in Halifax" (1 # 2); row "AWS certified" (9 # 10)].

(** Two registered collections, every service answering. *)
Definition two : Sim.World :=
  world (Some twoLines) [] [] rows [] false false false false.

(** The nearest row, as a result of the first collection. *)
Definition nearest : SearchResult :=
  {| document := js "BEng in Gujarat";
     distance := 3 # 10;
     metadata := hit_metadata (row "BEng in Gujarat" (3 # 10));
     result_source := Some (js "document:cv_jay.pdf");
     collection := js "doc_cv_1_aaaaaa" |}.

(** Two registered collections, the embedding service failing. *)
Definition noEmbedding : Sim.World :=
  world (Some twoLines) [] [] rows [] false false true false.

(** Two registered collections, the first one deleted from the store. *)
Definition oneGone : Sim.World :=
  world (Some twoLines) [] [] rows [js "doc_cv_1_aaaaaa"]
        false false false false.

(** Two registered collections, the backend unreachable. *)
Definition backendDown : Sim.World :=
  world (Some twoLines) [] [] rows [] false false false true.

(** A stale registry that cannot be deleted, and one document to ingest. *)
Definition staleRegistry : Sim.World :=
  world (Some staleLine) [js "resume_jay.pdf"]
        [Sim.chunk "Jay Patel is a software developer."] [] []
        true false false false.

(** One document whose only chunk is white space. *)
Definition blankDocument : Sim.World :=
  world None [js "scan.pdf"] [Sim.chunk "   "] [] []
        false false false false.

(** One document with a chunk, the registry file not writable. *)
Definition readOnlyRegistry : Sim.World :=
  world None [js "resume_jay.pdf"]
        [Sim.chunk "Jay Patel is a software developer."] [] []
        false true false false.

(** One document with a chunk, every service answering. *)
Definition fresh : Sim.World :=
  world None [js "resume_jay.pdf"]
        [Sim.chunk "Jay Patel is a software developer."] [] []
        false false false false.

(** Three chunks, the middle one empty; the third starts with the last
    six words of the first. *)
Definition gapped : list Document :=
  [Sim.chunk "Jay built a retrieval pipeline for portfolio documents";
   Sim.chunk "";
   Sim.chunk "a retrieval pipeline for portfolio documents with Chroma"].

(** Two adjacent chunks with the same shared words. *)
Definition adjacent : list Document :=
  [Sim.chunk "Jay built a retrieval pipeline for portfolio documents";
   Sim.chunk "a retrieval pipeline for portfolio documents with Chroma"].

Definition withChunks (chunks : list Document) : Sim.World :=
  world None [] chunks [] [] false false false false.

(** Two documents, the parser returning one chunk for each. *)
Definition twoFiles : Sim.World :=
  world None [js "resume_jay.pdf"; js "projects.pdf"]
        [Sim.chunk "Jay Patel is a software developer."] [] []
        false false false false.

(** One document with a chunk, the embedding service failing. *)
Definition rateLimited : Sim.World :=
  world None [js "resume_jay.pdf"]
        [Sim.chunk "Jay Patel is a software developer."] [] []
        false false true false.

(** The metadata of the second chunk of [adjacent], and of the third
    chunk of [gapped], in a file [cv_jay.pdf]. *)
Definition adjacentSecond : ChunkMetadata :=
  chunkMetadata (js "cv_jay.pdf") (js "cv") adjacent 1
    (js "a retrieval pipeline for portfolio documents with Chroma").

Definition gappedThird : ChunkMetadata :=
  chunkMetadata (js "cv_jay.pdf") (js "cv") gapped 2
    (js "a retrieval pipeline for portfolio documents with Chroma").

(** The loop over the chunks, run on the given chunks. *)
Definition chunksOf (chunks : list Document)
  : Result Arrays * St Sim.World :=
  run (processChunks Sim.services (js "cv_jay.pdf") (js "cv") chunks)
      (withChunks chunks).

End Scenario.

(* ================================================================== *)
(** ** Vocabulary of the specification *)
(* ================================================================== *)

(** The words of a text as [findTextOverlap] tokenizes it,
    [text.split(" ")]: the pieces between space characters.  No other
    white space separates two words, and two adjacent spaces enclose an
    empty word. *)
Definition wordsOf (t : jsstring) : list jsstring := split SPACE t.

(** The last [k] words of [prev], joined by single spaces. *)
Definition lastWords (k : nat) (prev : jsstring) : jsstring :=
  join [SPACE] (skipn (length (wordsOf prev) - k) (wordsOf prev)).

(** The first [k] words of [next], joined by single spaces. *)
Definition firstWords (k : nat) (next : jsstring) : jsstring :=
  join [SPACE] (firstn k (wordsOf next)).

(** A window size [k] at which the end of [prev] is the start of [next]. *)
Definition WindowMatch (prev next : jsstring) (k : nat) : Prop :=
  1 <= k <= Nat.min (length (wordsOf prev)) (length (wordsOf next))
  /\ lastWords k prev = firstWords k next.

(** The largest such window size. *)
Definition LongestWindow (prev next : jsstring) (k : nat) : Prop :=
  WindowMatch prev next k
  /\ forall k', WindowMatch prev next k' -> k' <= k.

(** The words of a text as the specification tokenizes it, on white
    space: the maximal runs of characters that are not white space. *)
Fixpoint whitespaceWords (t : jsstring) : list jsstring :=
  match t with
  | [] => []
  | c :: r =>
      if is_ws c then whitespaceWords r
      else match r with
           | [] => [[c]]
           | d :: _ =>
               if is_ws d then [c] :: whitespaceWords r
               else match whitespaceWords r with
                    | [] => [[c]]
                    | w :: ws => (c :: w) :: ws
                    end
           end
  end.

(** The last [k] of these words of [prev], joined by single spaces. *)
Definition lastWhitespaceWords (k : nat) (prev : jsstring) : jsstring :=
  join [SPACE]
       (skipn (length (whitespaceWords prev) - k) (whitespaceWords prev)).

(** The first [k] of these words of [next], joined by single spaces. *)
Definition firstWhitespaceWords (k : nat) (next : jsstring) : jsstring :=
  join [SPACE] (firstn k (whitespaceWords next)).

(** A window size [k] of the specification: the last [k] white-space
    words of [prev] are the first [k] of [next]. *)
Definition WhitespaceWindowMatch (prev next : jsstring) (k : nat) : Prop :=
  1 <= k <= Nat.min (length (whitespaceWords prev))
                    (length (whitespaceWords next))
  /\ lastWhitespaceWords k prev = firstWhitespaceWords k next.

(** The largest such window size. *)
Definition LongestWhitespaceWindow (prev next : jsstring) (k : nat)
  : Prop :=
  WhitespaceWindowMatch prev next k
  /\ forall k', WhitespaceWindowMatch prev next k' -> k' <= k.

(** A word of a text in which single spaces are the only white space:
    not empty, and free of white space. *)
Definition plainWord (w : jsstring) : Prop :=
  w <> [] /\ Forall (fun c => is_ws c = false) w.

(** What the loop of [findTextOverlap] holds in [maxOverlap] after the
    window sizes [1..m]. *)
Definition scanned (prev next : jsstring) (m : nat)
           (maxOverlap : jsstring) : Prop :=
  (exists k, 1 <= k <= m /\ lastWords k prev = firstWords k next
             /\ (forall k', 1 <= k' <= m ->
                            lastWords k' prev = firstWords k' next ->
                            k' <= k)
             /\ maxOverlap = lastWords k prev)
  \/ ((forall k', 1 <= k' <= m ->
                  lastWords k' prev <> firstWords k' next)
      /\ maxOverlap = []).

(** [m], started in [st], ends with outcome [r] in [st'], having added
    the events [evs] to the trace. *)
Definition runs {W A} (m : M W A) (st : St W) (r : Result A)
           (evs : list Event) (st' : St W) : Prop :=
  m st = (r, st') /\ trace st' = trace st ++ evs.

(** [m] always ends, and its outcome and events satisfy [Post]. *)
Definition satisfies {W A} (m : M W A)
           (Post : Result A -> list Event -> Prop) : Prop :=
  forall st, exists r evs st', runs m st r evs st' /\ Post r evs.

(** Calls of the embedding service. *)
Definition isEmbed (ev : Event) : bool :=
  match ev with
  | EvEmbed _ _ => true
  | _ => false
  end.

Definition countEmbeds (evs : list Event) : nat :=
  length (filter isEmbed evs).

(** Successful look-ups of a collection handle. *)
Definition isHandle (ev : Event) : bool :=
  match ev with
  | EvGetCollection _ true => true
  | _ => false
  end.

(** Calls of the search and generation services. *)
Definition isSearchOrGeneration (ev : Event) : bool :=
  match ev with
  | EvRead _ _ | EvGetCollection _ _ | EvEmbed _ _ | EvQuery _ _ _ _
  | EvGenerate _ _ _ => true
  | _ => false
  end.

(** The failures that make [processSinglePDF] return [null]. *)
Definition fatalFailure (ev : Event) : bool :=
  match ev with
  | EvCreateCollection _ false => true
  | EvLoadData _ false => true
  | EvEmbed _ None => true
  | EvAdd _ _ false => true
  | _ => false
  end.

(** The events of one turn of the search loop, for the collection [nm]:
    the handle is not obtained; or it is and the embedding call throws; or
    it is, the embedding call returns [e], and the collection is queried
    with that [e]. *)
Inductive Visit (query : jsstring) (topK : Z) (nm : jsstring)
  : list Event -> Prop :=
| visit_no_handle :
    Visit query topK nm [EvGetCollection nm false]
| visit_no_embedding :
    Visit query topK nm [EvGetCollection nm true; EvEmbed query None]
| visit_queried (c : Collection) (e : Embedding) (ok : bool) :
    Visit query topK nm
          [EvGetCollection nm true; EvEmbed query (Some e);
           EvQuery c e topK ok].

(** The events of the search loop over the collections named [names]. *)
Inductive Visits (query : jsstring) (topK : Z)
  : list jsstring -> list Event -> Prop :=
| visits_nil : Visits query topK [] []
| visits_cons (nm : jsstring) (names : list jsstring)
              (evs1 evs2 : list Event) :
    Visit query topK nm evs1 ->
    Visits query topK names evs2 ->
    Visits query topK (nm :: names) (evs1 ++ evs2).

(** Results in order of non-decreasing distance. *)
Definition ascending (results : list SearchResult) : Prop :=
  StronglySorted (fun a b => (distance a <= distance b)%Q) results.

(** Chunk [i] of [documents] is stored, with text [chunkText]. *)
Definition StoredChunk (documents : list Document) (i : nat)
           (chunkText : jsstring) : Prop :=
  exists doc, nth_error documents i = Some doc
              /\ chunkTextOf doc = Some chunkText
              /\ skipped (Some chunkText) = false.

(** What the loop over the chunks keeps true of its arrays: every
    metadata object is the one built for a stored chunk, at its index
    [chunkIndex], and [ids] is as long as [metadatas]. *)
Definition chunksInvariant (file src : jsstring)
           (documents : list Document) (acc : Arrays) : Prop :=
  (forall m, In m (metadatas acc) ->
             exists chunkText,
               StoredChunk documents (chunkIndex m) chunkText
               /\ m = chunkMetadata file src documents (chunkIndex m)
                                    chunkText)
  /\ length (ids acc) = length (metadatas acc).

(** The text of the last chunk of [documents] that is not skipped. *)
Definition lastKept (documents : list Document) : option jsstring :=
  fold_left (fun kept doc =>
               if skipped (chunkTextOf doc) then kept else chunkTextOf doc)
            documents None.

(** The text of the nearest chunk before index [i] that is not skipped. *)
Definition precedingNonEmpty (documents : list Document) (i : nat)
  : option jsstring :=
  lastKept (firstn i documents).

(** A text with no [|] in it. *)
Definition pipeFree (s : jsstring) : Prop := ~ In PIPE s.

(** [question] is a string that is empty or all white space. *)
Definition blank (q : jsstring) : Prop := trim q = [].

(** A text that does not start, or does not end, with white space. *)
Definition starts_clean (s : jsstring) : bool :=
  match s with
  | [] => true
  | c :: _ => negb (is_ws c)
  end.

Definition ends_clean (s : jsstring) : bool := starts_clean (rev s).

(** A record whose two fields can be written to the registry and read
    back: no [|] and no line feed in either, no white space at the start
    of the id nor at the end of the source. *)
Definition writable (record : jsstring * jsstring) : Prop :=
  pipeFree (fst record) /\ ~ In NEWLINE (fst record)
  /\ pipeFree (snd record) /\ ~ In NEWLINE (snd record)
  /\ starts_clean (fst record) = true
  /\ ends_clean (snd record) = true.

(** The content of the registry file after the given records have been
    appended to an empty file, one [saveCollectionName] each. *)
Definition registryContent (records : list (jsstring * jsstring))
  : jsstring :=
  concat (map (fun record => registryLine (fst record) (snd record))
              records).

(** A record as [loadCollectionNames] returns it. *)
Definition infoOf (record : jsstring * jsstring) : CollectionInfo :=
  {| name := fst record; info_source := Some (snd record) |}.

(** Chunk [i] passes the test of the loop and is stored. *)
Definition storedAt (documents : list Document) (i : nat) : bool :=
  match nth_error documents i with
  | Some doc => negb (skipped (chunkTextOf doc))
  | None => false
  end.

(** The text of chunk [i], [doc.text || doc.getText()]. *)
Definition textAt (documents : list Document) (i : nat) : jsstring :=
  match nth_error documents i with
  | Some doc =>
      match chunkTextOf doc with
      | Some chunkText => chunkText
      | None => []
      end
  | None => []
  end.

(** The indices of the chunks that are stored, in extraction order. *)
Definition storedIndices (documents : list Document) : list nat :=
  filter (storedAt documents) (seq 0 (length documents)).

(** The id pushed for chunk [i]. *)
Definition chunkId (i : nat) : jsstring := js "chunk_" ++ dec i.

(** The successful embedding calls made for the chunks [indices], which
    returned the vectors [vectors]. *)
Definition embedCalls (documents : list Document) (indices : list nat)
           (vectors : list Embedding) : list Event :=
  map (fun p => EvEmbed (textAt documents (fst p)) (Some (snd p)))
      (combine indices vectors).

(** The events of [saveCollectionName] for one line of the registry: the
    append alone, the creation of the directory and the append, or a
    failed creation of the directory and no append. *)
Inductive Registration (registry line : jsstring) : list Event -> Prop :=
| registration_append (ok : bool) :
    Registration registry line [EvAppend registry line ok]
| registration_mkdir_append (ok : bool) :
    Registration registry line
                 [EvMkdir (js "app") true; EvAppend registry line ok]
| registration_mkdir_failed :
    Registration registry line [EvMkdir (js "app") false].

(** The courses [processSinglePDF] can take for the file at [filePath],
    with its result and its events: the collection [id] is not created;
    the file is not parsed; an embedding call fails after the calls
    [embeds] succeeded; no chunk is stored; the batch write fails; the
    batch is written and the registration is attempted. *)
Inductive IngestCourse (registry filePath file id : jsstring)
  : option jsstring -> list Event -> Prop :=
| course_no_collection :
    IngestCourse registry filePath file id None
                 [EvCreateCollection id false]
| course_no_parse :
    IngestCourse registry filePath file id None
                 [EvCreateCollection id true; EvLoadData filePath false]
| course_no_embedding (documents : list Document)
                      (done : list nat) (failed : nat) (rest : list nat)
                      (vectors : list Embedding) :
    storedIndices documents = done ++ failed :: rest ->
    length vectors = length done ->
    IngestCourse registry filePath file id None
                 ([EvCreateCollection id true; EvLoadData filePath true]
                  ++ embedCalls documents done vectors
                  ++ [EvEmbed (textAt documents failed) None])
| course_nothing_stored (documents : list Document) :
    storedIndices documents = [] ->
    IngestCourse registry filePath file id (Some id)
                 [EvCreateCollection id true; EvLoadData filePath true]
| course_no_write (documents : list Document) (coll : Collection)
                  (req : AddRequest) :
    storedIndices documents <> [] ->
    add_ids req = map chunkId (storedIndices documents) ->
    add_documents req = map (textAt documents) (storedIndices documents) ->
    length (add_embeddings req) = length (storedIndices documents) ->
    IngestCourse registry filePath file id None
                 ([EvCreateCollection id true; EvLoadData filePath true]
                  ++ embedCalls documents (storedIndices documents)
                                (add_embeddings req)
                  ++ [EvAdd coll req false])
| course_stored (documents : list Document) (coll : Collection)
                (req : AddRequest) (saves : list Event) :
    storedIndices documents <> [] ->
    add_ids req = map chunkId (storedIndices documents) ->
    add_documents req = map (textAt documents) (storedIndices documents) ->
    length (add_embeddings req) = length (storedIndices documents) ->
    Registration registry (registryLine id (js "document:" ++ file))
                 saves ->
    IngestCourse registry filePath file id (Some id)
                 ([EvCreateCollection id true; EvLoadData filePath true]
                  ++ embedCalls documents (storedIndices documents)
                                (add_embeddings req)
                  ++ [EvAdd coll req true] ++ saves).


(** Batch writes and appends to the registry. *)
Definition isAdd (ev : Event) : bool :=
  match ev with
  | EvAdd _ _ _ => true
  | _ => false
  end.

Definition isAppend (ev : Event) : bool :=
  match ev with
  | EvAppend _ _ _ => true
  | _ => false
  end.

(** The name [processSinglePDF] gives the collection of [file], from the
    clock and the random suffix. *)
Definition collectionIdOf (file timestamp random : jsstring) : jsstring :=
  (js "doc_" ++ strip_extension file) ++ js "_" ++ timestamp
  ++ js "_" ++ random.

(** The entries [names] of the directory [dirPath], in a world [w] that
    the file system reads without changing, list the files [files]: a
    plain file lists its own path, a sub-directory lists what [Sub] tells
    of it. *)
Inductive Entries {W : Type} (env : Services W) (w : W)
          (Sub : jsstring -> list jsstring -> Prop) (dirPath : jsstring)
  : list jsstring -> list jsstring -> Prop :=
| entries_none : Entries env w Sub dirPath [] []
| entries_file (file : jsstring) (names files : list jsstring) :
    statIsDirectory env (path_join env dirPath file) w = (Ok false, w) ->
    Entries env w Sub dirPath names files ->
    Entries env w Sub dirPath (file :: names)
            (path_join env dirPath file :: files)
| entries_directory (file : jsstring) (names sub files : list jsstring) :
    statIsDirectory env (path_join env dirPath file) w = (Ok true, w) ->
    Sub (path_join env dirPath file) sub ->
    Entries env w Sub dirPath names files ->
    Entries env w Sub dirPath (file :: names) (sub ++ files).

(** The directory [dirPath] is the root of a tree of directories nested
    less than [depth] deep, whose files, walked depth first in directory
    order, are [files]. *)
Fixpoint Listing {W : Type} (env : Services W) (w : W) (depth : nat)
         (dirPath : jsstring) (files : list jsstring) : Prop :=
  match depth with
  | 0 => False
  | S depth' =>
      exists names,
        readdirSync env dirPath w = (Ok names, w)
        /\ Entries env w (Listing env w depth') dirPath names files
  end.

(** Calls of the generation service. *)
Definition isGenerate (ev : Event) : bool :=
  match ev with
  | EvGenerate _ _ _ => true
  | _ => false
  end.

(** The system prompt built for the given results. *)
Definition systemPromptOf {W : Type} (env : Services W)
           (relevantResults : list SearchResult) : jsstring :=
  prompt_head env ++ contextText relevantResults ++ prompt_tail env.

(* ================================================================== *)
(** * Theorems *)
(* ================================================================== *)

Unset Implicit Arguments.

(** ** Strings and arrays *)

Lemma jseqb_eq (a b : jsstring) : jseqb a b = true <-> a = b.
Proof.
  revert b; induction a as [|x a IH]; intros [|y b]; simpl;
    try (split; [discriminate | congruence]).
  - split; reflexivity.
  - rewrite andb_true_iff, N.eqb_eq, IH. split.
    + intros [-> ->]; reflexivity.
    + intros E; injection E; auto.
Qed.

Lemma split_not_nil (c : N) (s : jsstring) : split c s <> [].
Proof.
  destruct s as [|x r]; simpl; [discriminate|].
  destruct (N.eqb x c); [discriminate|].
  destruct (split c r); discriminate.
Qed.

Lemma join_cons_length (sep w : jsstring) (l : list jsstring) :
  l <> [] ->
  length (join sep (w :: l)) = length w + length sep + length (join sep l).
Proof.
  destruct l as [|w' l]; [congruence|]. intros _.
  change (join sep (w :: w' :: l)) with (w ++ sep ++ join sep (w' :: l)).
  rewrite !length_app. lia.
Qed.

Lemma slice_last_skipn {A} (k : nat) (l : list A) :
  1 <= k -> slice_last k l = skipn (length l - k) l.
Proof.
  intros Hk. unfold slice_last.
  destruct (Nat.eqb_spec k 0); [lia | reflexivity].
Qed.

Lemma skipn_step {A} (n : nat) (l : list A) :
  n < length l ->
  exists x, skipn n l = x :: skipn (S n) l.
Proof.
  revert n; induction l as [|y l IH]; simpl; intros n Hn; [lia|].
  destruct n as [|n]; [exists y; reflexivity|].
  destruct (IH n) as [x Hx]; [lia|]. exists x. exact Hx.
Qed.

(** ** The overlap detector *)

Section Overlap.

Variables prev next : jsstring.

Lemma lastWords_grows (k : nat) :
  1 <= k -> k < length (wordsOf prev) ->
  length (lastWords k prev) < length (lastWords (S k) prev).
Proof.
  intros H1 H2. unfold lastWords.
  destruct (skipn_step (length (wordsOf prev) - S k) (wordsOf prev)) as [x Hx]; [lia|].
  replace (S (length (wordsOf prev) - S k)) with (length (wordsOf prev) - k) in Hx by lia.
  rewrite Hx, join_cons_length.
  - simpl; lia.
  - intros E. apply (f_equal (@length _)) in E.
    rewrite length_skipn in E. simpl in E. lia.
Qed.

Lemma lastWords_mono (k k' : nat) :
  1 <= k -> k < k' -> k' <= length (wordsOf prev) ->
  length (lastWords k prev) < length (lastWords k' prev).
Proof.
  intros H1 Hlt. induction Hlt as [|k' Hlt IH]; intros Hle.
  - apply lastWords_grows; lia.
  - etransitivity; [apply IH; lia|]. apply lastWords_grows; lia.
Qed.

Lemma overlapStep_window (acc : jsstring) (i : nat) :
  1 <= i ->
  overlapStep (wordsOf prev) (wordsOf next) acc i =
  if jseqb (lastWords i prev) (firstWords i next)
     && Nat.ltb (length acc) (length (lastWords i prev))
  then lastWords i prev else acc.
Proof.
  intros Hi. unfold overlapStep, lastWords, firstWords, slice_first.
  rewrite slice_last_skipn by assumption. reflexivity.
Qed.

Lemma scan_invariant (m : nat) :
  m <= length (wordsOf prev) ->
  scanned prev next m (fold_left (overlapStep (wordsOf prev) (wordsOf next)) (seq 1 m) []).
Proof.
  induction m as [|m IH]; intros Hm.
  - right. split; [intros; lia | reflexivity].
  - rewrite seq_S, fold_left_app. simpl.
    specialize (IH ltac:(lia)).
    set (acc := fold_left (overlapStep (wordsOf prev) (wordsOf next)) (seq 1 m) []) in *.
    rewrite overlapStep_window by lia.
    destruct (jseqb (lastWords (S m) prev) (firstWords (S m) next)) eqn:E;
      simpl.
    + apply jseqb_eq in E.
      assert (Hnew : scanned prev next (S m) (lastWords (S m) prev)).
      { left. exists (S m). repeat split; try lia; auto; intros; lia. }
      destruct (Nat.ltb_spec (length acc) (length (lastWords (S m) prev)))
        as [Hlt|Hge]; [exact Hnew|].
      destruct IH as [(k & Hk & _ & _ & Hacc) | (_ & Hacc)].
      * exfalso. rewrite Hacc in Hge.
        assert (length (lastWords k prev) < length (lastWords (S m) prev))
          by (apply lastWords_mono; lia).
        lia.
      * rewrite Hacc in Hge. simpl in Hge.
        assert (E0 : lastWords (S m) prev = [])
          by (destruct (lastWords (S m) prev); [reflexivity | simpl in Hge; lia]).
        rewrite Hacc, <- E0. exact Hnew.
    + assert (Hne : lastWords (S m) prev <> firstWords (S m) next).
      { intros Heq. apply jseqb_eq in Heq. congruence. }
      destruct IH as [(k & Hk & Hmatch & Hmax & Hacc) | (Hnone & Hacc)].
      * left. exists k. repeat split; try lia; auto.
        intros k' Hk' Hm'. destruct (Nat.eq_dec k' (S m)) as [->|];
          [contradiction | apply Hmax; [lia | assumption]].
      * right. split; [|assumption].
        intros k' Hk'. destruct (Nat.eq_dec k' (S m)) as [->|];
          [assumption | apply Hnone; lia].
Qed.

Lemma findTextOverlap_scanned :
  scanned prev next (Nat.min (length (wordsOf prev)) (length (wordsOf next)))
          (findTextOverlap prev next).
Proof.
  unfold findTextOverlap. fold (wordsOf prev) (wordsOf next).
  apply scan_invariant. lia.
Qed.

End Overlap.

(** C2, as the code has it.  The words of a text are the pieces that
    [text.split(" ")] gives: the space character alone separates them.
    For these words, [findTextOverlap prev next] is the last [k] words of
    [prev] joined by single spaces, for the largest [k] between 1 and the
    smaller of the two word counts at which these equal the first [k]
    words of [next] joined by single spaces; it is the empty string when
    there is no such [k]; and on "the quick brown fox" and
    "brown fox jumps" it is "brown fox". *)
Theorem findTextOverlap_longest_window :
  (forall prev next k,
      LongestWindow prev next k ->
      findTextOverlap prev next = lastWords k prev)
  /\ (forall prev next,
         (forall k, ~ WindowMatch prev next k) ->
         findTextOverlap prev next = [])
  /\ findTextOverlap (js "the quick brown fox") (js "brown fox jumps")
     = js "brown fox".
Proof.
  split; [|split].
  - intros prev next k [[Hk Hm] Hmax].
    destruct (findTextOverlap_scanned prev next)
      as [(k0 & Hk0 & Hm0 & Hmax0 & ->) | (Hnone & _)].
    + assert (k0 <= k) by (apply Hmax; split; assumption).
      assert (k <= k0) by (apply Hmax0; assumption).
      replace k0 with k by lia. reflexivity.
    + exfalso. exact (Hnone k Hk Hm).
  - intros prev next Hnone.
    destruct (findTextOverlap_scanned prev next)
      as [(k0 & Hk0 & Hm0 & _) | (_ & ->)]; [|reflexivity].
    exfalso. apply (Hnone k0). split; assumption.
  - reflexivity.
Qed.

Lemma findTextOverlap_longest_window_witness :
  LongestWindow (js "the quick brown fox") (js "brown fox jumps") 2
  /\ findTextOverlap (js "the quick brown fox") (js "brown fox jumps")
     = lastWords 2 (js "the quick brown fox").
Proof.
  assert (H : LongestWindow (js "the quick brown fox")
                            (js "brown fox jumps") 2).
  { split.
    - split; [vm_compute; lia | reflexivity].
    - intros k' [Hk' Hm]. vm_compute in Hk'.
      destruct (Nat.eq_dec k' 3) as [->|]; [|lia].
      vm_compute in Hm. discriminate. }
  split; [exact H|].
  exact (proj1 findTextOverlap_longest_window _ _ _ H).
Defined.

(** C2, as stated, fails.  With words separated by white space, the
    last word of "alpha<LF>beta" is the first word of "beta gamma" and the
    two-word windows differ, so that the overlap of the specification is
    "beta"; [findTextOverlap] returns the empty string, for to it
    "alpha<LF>beta" is one word.  Likewise the two white-space words of
    "a  b" are the first two of "a b c", and [findTextOverlap] returns the
    empty string, for to it "a  b" has an empty word between the two
    spaces. *)
Lemma findTextOverlap_misses_whitespace_words :
  (whitespaceWords (js "alpha" ++ [NEWLINE] ++ js "beta")
   = [js "alpha"; js "beta"]
   /\ whitespaceWords (js "beta gamma") = [js "beta"; js "gamma"]
   /\ LongestWhitespaceWindow (js "alpha" ++ [NEWLINE] ++ js "beta")
                              (js "beta gamma") 1
   /\ lastWhitespaceWords 1 (js "alpha" ++ [NEWLINE] ++ js "beta")
      = js "beta"
   /\ findTextOverlap (js "alpha" ++ [NEWLINE] ++ js "beta")
                      (js "beta gamma") = [])
  /\ (whitespaceWords (js "a  b") = [js "a"; js "b"]
      /\ whitespaceWords (js "a b c") = [js "a"; js "b"; js "c"]
      /\ LongestWhitespaceWindow (js "a  b") (js "a b c") 2
      /\ lastWhitespaceWords 2 (js "a  b") = js "a b"
      /\ findTextOverlap (js "a  b") (js "a b c") = []).
Proof.
  split.
  - split; [reflexivity|]. split; [reflexivity|].
    split; [|split; reflexivity].
    split.
    + split; [vm_compute; lia | reflexivity].
    + intros k' [Hk' Hm]. vm_compute in Hk'.
      destruct (Nat.eq_dec k' 2) as [->|]; [|lia].
      vm_compute in Hm. discriminate.
  - split; [reflexivity|]. split; [reflexivity|].
    split; [|split; reflexivity].
    split.
    + split; [vm_compute; lia | reflexivity].
    + intros k' [Hk' _]. vm_compute in Hk'. lia.
Qed.

(** Words are separated by the space character alone: a tab does not
    separate two words, and two adjacent spaces enclose an empty word. *)
Example findTextOverlap_tab_is_no_separator :
  findTextOverlap (js "alpha beta") (js "beta gamma") = js "beta"
  /\ findTextOverlap [97; 9; 98]%N [98; 32; 99]%N = []
  /\ wordsOf (js "a  b") = [js "a"; []; js "b"].
Proof. repeat split. Qed.

(** ** The monad *)

Lemma runs_ret {W A} (a : A) (st : St W) : runs (ret a) st (Ok a) [] st.
Proof. split; [reflexivity | symmetry; apply app_nil_r]. Qed.

Lemma runs_throw {W A} (e : JsError) (st : St W) :
  runs (@throw W A e) st (Throw e) [] st.
Proof. split; [reflexivity | symmetry; apply app_nil_r]. Qed.

Lemma runs_bind {W A B} (m : M W A) (k : A -> M W B) st a evs1 st1 r evs2
      st2 :
  runs m st (Ok a) evs1 st1 ->
  runs (k a) st1 r evs2 st2 ->
  runs (bind m k) st r (evs1 ++ evs2) st2.
Proof.
  intros [E1 T1] [E2 T2]. split.
  - unfold bind. rewrite E1. exact E2.
  - rewrite T2, T1, app_assoc. reflexivity.
Qed.

Lemma runs_bind_throw {W A B} (m : M W A) (k : A -> M W B) st e evs st1 :
  runs m st (Throw e) evs st1 ->
  runs (bind m k) st (Throw e) evs st1.
Proof.
  intros [E1 T1]. split; [|exact T1]. unfold bind. rewrite E1. reflexivity.
Qed.

Lemma runs_try_ok {W A} (m : M W A) (h : JsError -> M W A) st a evs st1 :
  runs m st (Ok a) evs st1 ->
  runs (try_catch m h) st (Ok a) evs st1.
Proof.
  intros [E1 T1]. split; [|exact T1].
  unfold try_catch. rewrite E1. reflexivity.
Qed.

Lemma runs_try_catch {W A} (m : M W A) (h : JsError -> M W A) st e evs1 st1
      r evs2 st2 :
  runs m st (Throw e) evs1 st1 ->
  runs (h e) st1 r evs2 st2 ->
  runs (try_catch m h) st r (evs1 ++ evs2) st2.
Proof.
  intros [E1 T1] [E2 T2]. split.
  - unfold try_catch. rewrite E1. exact E2.
  - rewrite T2, T1, app_assoc. reflexivity.
Qed.

Lemma runs_rethrow {W A} (m : M W A) st r evs st1 :
  runs m st r evs st1 ->
  runs (try_catch m (fun error => throw error)) st r evs st1.
Proof.
  intros [E1 T1]. split; [|exact T1].
  unfold try_catch. rewrite E1. destruct r; reflexivity.
Qed.

Lemma runs_events {W A} (m : M W A) st r evs st' :
  runs m st r evs st' -> events m st = evs.
Proof.
  intros [E T]. unfold events. rewrite E. simpl. rewrite T.
  rewrite skipn_app, skipn_all, Nat.sub_diag. reflexivity.
Qed.

(** Closing a goal [runs m st r ?evs ?st'] once [m st] has been computed. *)
Ltac trace_eq :=
  simpl;
  repeat match goal with H : trace _ = _ |- _ => rewrite H end;
  repeat rewrite <- app_assoc; simpl;
  first [ reflexivity | symmetry; apply app_nil_r ].

Ltac done_runs := split; [reflexivity | trace_eq].

Ltac unfold_monad :=
  unfold runs, try_catch, bind, ask, call, ret, throw.

(** ** The registry *)

Section Registry.

Context {W : Type} (env : Services W).

Lemma saveCollectionName_runs (collectionName src : jsstring) :
  satisfies (saveCollectionName env collectionName src)
    (fun r evs =>
       r = Ok tt
       /\ forall ev, In ev evs ->
            (exists ok, ev = EvMkdir (js "app") ok)
            \/ (exists ok,
                   ev = EvAppend (collectionsFile env)
                                 (registryLine collectionName src) ok)).
Proof.
  intros st. unfold saveCollectionName.
  fold (registryLine collectionName src). unfold_monad.
  destruct (existsSync env (js "app") (world st)) as [found w1].
  destruct found; simpl.
  - destruct (appendFileSync env _ _ w1) as [[[]|e] w2]; simpl;
      (do 3 eexists; split; [done_runs|]; split; [reflexivity|];
       intros ev [<-|[]]; right; eexists; reflexivity).
  - destruct (mkdirSync env _ w1) as [[[]|e] w2]; simpl.
    + destruct (appendFileSync env _ _ w2) as [[[]|e] w3]; simpl;
        (do 3 eexists; split; [done_runs|]; split; [reflexivity|];
         intros ev [<-|[<-|[]]];
         [left | right]; eexists; reflexivity).
    + do 3 eexists; split; [done_runs|]; split; [reflexivity|].
      intros ev [<-|[]]. left; eexists; reflexivity.
Qed.

Lemma loadCollectionNames_runs :
  satisfies (loadCollectionNames env)
    (fun r evs =>
       (exists collections, r = Ok collections)
       /\ (evs = [] \/ exists ok, evs = [EvRead (collectionsFile env) ok])).
Proof.
  intros st. unfold loadCollectionNames. unfold_monad.
  destruct (existsSync env _ (world st)) as [found w1].
  destruct found; simpl.
  - destruct (readFileSync env _ w1) as [[content|e] w2]; simpl;
      (do 3 eexists; split; [done_runs|]; split;
       [eexists; reflexivity | right; eexists; reflexivity]).
  - do 3 eexists; split; [done_runs|]; split;
      [eexists; reflexivity | left; reflexivity].
Qed.

Lemma clearCollectionsFile_runs :
  satisfies (clearCollectionsFile env)
    (fun r evs =>
       r = Ok tt
       /\ (evs = [] \/ exists ok, evs = [EvUnlink (collectionsFile env) ok])).
Proof.
  intros st. unfold clearCollectionsFile. unfold_monad.
  destruct (existsSync env _ (world st)) as [found w1].
  destruct found; simpl.
  - destruct (unlinkSync env _ w1) as [[[]|e] w2]; simpl;
      (do 3 eexists; split; [done_runs|]; split;
       [reflexivity | right; eexists; reflexivity]).
  - do 3 eexists; split; [done_runs|]; split;
      [reflexivity | left; reflexivity].
Qed.

Lemma createEmbedding_runs (txt : jsstring) :
  satisfies (createEmbedding env txt)
    (fun r evs => evs = [EvEmbed txt (value_of r)]).
Proof.
  intros st. unfold createEmbedding. unfold_monad.
  destruct (embeddings_create env txt (world st)) as [[e|err] w1]; simpl;
    (do 3 eexists; split; [done_runs | reflexivity]).
Qed.

End Registry.

(** ** The ingestion of one document *)

Section Ingestion.

Context {W : Type} (env : Services W).

Variables file src : jsstring.
Variable documents : list Document.

(** What the four arrays hold at every turn of the loop. *)
Lemma chunkStep_runs (acc : Arrays) (i : nat) :
  i < length documents ->
  chunksInvariant file src documents acc ->
  satisfies (chunkStep env file src documents acc i)
    (fun r evs =>
       Forall (fun ev => isEmbed ev = true) evs
       /\ match r with
          | Ok acc' =>
              existsb fatalFailure evs = false
              /\ chunksInvariant file src documents acc'
          | Throw _ => existsb fatalFailure evs = true
          end).
Proof.
  intros Hi Hacc st. unfold chunkStep.
  destruct (nth_error documents i) as [doc|] eqn:Hdoc;
    [|apply nth_error_None in Hdoc; lia].
  destruct (chunkTextOf doc) as [chunkText|] eqn:Htext.
  - destruct (skipped (Some chunkText)) eqn:Hskip.
    + exists (Ok acc), [], st. split; [apply runs_ret|].
      split; [constructor | split; [reflexivity | exact Hacc]].
    + destruct (createEmbedding_runs env chunkText st)
        as (r & evs & st1 & R & ->).
      destruct r as [embedding|e].
      * do 3 eexists. split.
        { eapply runs_bind; [exact R | apply runs_ret]. }
        simpl. split; [repeat constructor|]. split; [reflexivity|].
        destruct Hacc as [Hmeta Hlen]. split; simpl.
        -- intros m Hm. apply in_app_or in Hm.
           destruct Hm as [Hm|[<-|[]]]; [apply Hmeta; exact Hm|].
           exists chunkText. split; [|reflexivity].
           exists doc. auto.
        -- rewrite !length_app, Hlen. reflexivity.
      * do 3 eexists. split; [apply runs_bind_throw; exact R|].
        simpl. split; [repeat constructor | reflexivity].
  - exists (Ok acc), [], st. split; [apply runs_ret|].
    split; [constructor | split; [reflexivity | exact Hacc]].
Qed.

Lemma chunkLoop_runs (indices : list nat) :
  (forall i, In i indices -> i < length documents) ->
  forall acc,
    chunksInvariant file src documents acc ->
    satisfies (foldM (chunkStep env file src documents) indices acc)
      (fun r evs =>
         Forall (fun ev => isEmbed ev = true) evs
         /\ match r with
            | Ok acc' =>
                existsb fatalFailure evs = false
                /\ chunksInvariant file src documents acc'
            | Throw _ => existsb fatalFailure evs = true
            end).
Proof.
  induction indices as [|i indices IH]; intros Hin acc Hacc st; simpl.
  - exists (Ok acc), [], st. split; [apply runs_ret|].
    split; [constructor | split; [reflexivity | exact Hacc]].
  - destruct (chunkStep_runs acc i (Hin i (or_introl eq_refl)) Hacc st)
      as (r1 & evs1 & st1 & R1 & F1 & H1).
    destruct r1 as [acc1|e].
    + destruct H1 as [G1 I1].
      destruct (IH (fun j Hj => Hin j (or_intror Hj)) acc1 I1 st1)
        as (r2 & evs2 & st2 & R2 & F2 & H2).
      exists r2, (evs1 ++ evs2), st2.
      split; [eapply runs_bind; eassumption|].
      split; [apply Forall_app; auto|].
      rewrite existsb_app, G1. exact H2.
    + exists (Throw e), evs1, st1.
      split; [apply runs_bind_throw; exact R1 | auto].
Qed.

Lemma processChunks_runs :
  satisfies (processChunks env file src documents)
    (fun r evs =>
       Forall (fun ev => isEmbed ev = true) evs
       /\ match r with
          | Ok acc =>
              existsb fatalFailure evs = false
              /\ chunksInvariant file src documents acc
          | Throw _ => existsb fatalFailure evs = true
          end).
Proof.
  apply chunkLoop_runs.
  - intros i Hi. apply in_seq in Hi. lia.
  - split; [intros m [] | reflexivity].
Qed.

End Ingestion.

Section IngestOne.

Context {W : Type} (env : Services W).

Lemma only_embeds (evs : list Event) (ev : Event) :
  Forall (fun ev => isEmbed ev = true) evs ->
  In ev evs -> isEmbed ev = true.
Proof. intros F Hin. rewrite Forall_forall in F. auto. Qed.

(** The outcome and the events of [processSinglePDF]. *)
Lemma processSinglePDF_runs (filePath : jsstring) :
  satisfies (processSinglePDF env filePath)
    (fun r evs =>
       exists res,
         r = Ok res
         /\ (res = None <-> existsb fatalFailure evs = true)
         /\ (forall id, res = Some id ->
                        In (EvCreateCollection id true) evs)
         /\ (forall p entry ok,
                In (EvAppend p entry ok) evs ->
                exists id,
                  res = Some id
                  /\ In (EvCreateCollection id true) evs
                  /\ p = collectionsFile env
                  /\ entry = registryLine id
                               (js "document:"
                                ++ path_basename env filePath))
         /\ (forall c req ok,
                In (EvAdd c req ok) evs ->
                exists documents st1 acc st2,
                  processChunks env (path_basename env filePath)
                    (sourceLabel env (path_basename env filePath))
                    documents st1 = (Ok acc, st2)
                  /\ add_ids req = ids acc
                  /\ add_metadatas req = metadatas acc)).
Proof.
  intros st. unfold processSinglePDF, generateCollectionName.
  set (file := path_basename env filePath).
  unfold_monad.
  destruct (date_now env (world st)) as [timestamp w1]. cbv beta iota.
  change (world {| world := w1; trace := trace st |}) with w1.
  destruct (random_suffix env w1) as [random w2]. cbv beta iota.
  set (id := (js "doc_" ++ strip_extension file) ++ js "_" ++ timestamp
             ++ js "_" ++ random).
  change (world {| world := w2; trace := _ |}) with w2.
  destruct (createCollection env id w2) as [[coll|e] w3]; simpl.
  2:{ do 3 eexists. split; [done_runs|]. exists None.
      split; [reflexivity|]. simpl.
      split; [tauto|]. split; [discriminate|].
      split; [intros p entry ok [Hev|[]]; discriminate
             | intros c req ok [Hev|[]]; discriminate]. }
  destruct (loadData env filePath w3) as [[documents|e] w4]; simpl.
  2:{ do 3 eexists. split; [done_runs|]. exists None.
      split; [reflexivity|]. simpl.
      split; [tauto|]. split; [discriminate|].
      split; [intros p entry ok [Hev|[Hev|[]]]; discriminate
             | intros c req ok [Hev|[Hev|[]]]; discriminate]. }
  match goal with
  | |- context [processChunks env ?f ?s ?d ?st1] =>
      destruct (processChunks_runs env f s d st1)
        as (r & evs & st2 & [E T] & F & H)
  end.
  rewrite E. simpl in T. destruct r as [acc|e].
  2:{ do 3 eexists. split; [done_runs|]. exists None.
      split; [reflexivity|].
      simpl. rewrite H.
      split; [tauto|]. split; [discriminate|].
      split.
      - intros p entry ok [Hev|[Hev|Hev]]; try discriminate.
        apply (only_embeds _ _ F) in Hev. discriminate.
      - intros c req ok [Hev|[Hev|Hev]]; try discriminate.
        apply (only_embeds _ _ F) in Hev. discriminate. }
  destruct H as [G [Hmeta Hlen]].
  destruct (Nat.ltb 0 (length (ids acc))) eqn:Hids; simpl.
  2:{ do 3 eexists. split; [done_runs|]. exists (Some id).
      split; [reflexivity|]. simpl. rewrite G.
      split; [split; discriminate|].
      split; [intros ? [= <-]; left; reflexivity|].
      split.
      - intros p entry ok [Hev|[Hev|Hev]]; try discriminate.
        apply (only_embeds _ _ F) in Hev. discriminate.
      - intros c req ok [Hev|[Hev|Hev]]; try discriminate.
        apply (only_embeds _ _ F) in Hev. discriminate. }
  set (req := {| add_ids := ids acc; add_metadatas := metadatas acc;
                 add_documents := docTexts acc;
                 add_embeddings := embeddings acc |}).
  assert (HnoAdd : forall c' req' ok', ~ In (EvAdd c' req' ok') evs).
  { intros c' req' ok' Hev.
    apply (only_embeds _ _ F) in Hev. discriminate. }
  assert (HnoApp : forall p entry ok, ~ In (EvAppend p entry ok) evs).
  { intros p entry ok Hev.
    apply (only_embeds _ _ F) in Hev. discriminate. }
  assert (Hloop : exists documents' st1 acc' st2',
             processChunks env file (sourceLabel env file) documents' st1
             = (Ok acc', st2')
             /\ add_ids req = ids acc'
             /\ add_metadatas req = metadatas acc').
  { do 4 eexists. split; [exact E | split; reflexivity]. }
  destruct (collection_add env coll req (world st2)) as [[[]|e] w5]; simpl.
  2:{ do 3 eexists. split; [done_runs|]. exists None.
      split; [reflexivity|]. simpl. rewrite existsb_app. simpl.
      rewrite orb_true_r.
      split; [tauto|]. split; [discriminate|].
      split.
      - intros p entry ok [Hev|[Hev|Hev]]; try discriminate.
        apply in_app_or in Hev. destruct Hev as [Hev|[Hev|[]]];
          [apply HnoApp in Hev; contradiction | discriminate].
      - intros c' req' ok' [Hev|[Hev|Hev]]; try discriminate.
        apply in_app_or in Hev. destruct Hev as [Hev|[Hev|[]]];
          [apply HnoAdd in Hev; contradiction|].
        injection Hev as <- <- <-. exact Hloop. }
  match goal with
  | |- context [saveCollectionName env ?n ?s ?st3] =>
      destruct (saveCollectionName_runs env n s st3)
        as (r3 & evs3 & st4 & [E3 T3] & -> & H3)
  end.
  rewrite E3. simpl in T3. simpl.
  do 3 eexists. split; [done_runs|]. exists (Some id).
  split; [reflexivity|]. simpl.
  assert (Hnf : existsb fatalFailure (evs ++ EvAdd coll req true :: evs3)
                = false).
  { rewrite existsb_app, G. simpl. apply not_true_is_false. intros Hx.
    apply existsb_exists in Hx. destruct Hx as (ev & Hev & Hf).
    destruct (H3 ev Hev) as [[ok ->]|[ok ->]]; discriminate. }
  rewrite Hnf.
  split; [split; discriminate|].
  split; [intros ? [= <-]; left; reflexivity|].
  split.
  - intros p entry ok [Hev|[Hev|Hev]]; try discriminate.
    apply in_app_or in Hev. destruct Hev as [Hev|[Hev|Hev]];
      [apply HnoApp in Hev; contradiction | discriminate |].
    destruct (H3 _ Hev) as [[ok' Heq]|[ok' Heq]]; [discriminate|].
    injection Heq as -> -> _. exists id. split; [reflexivity|].
    split; [left; reflexivity | split; reflexivity].
  - intros c' req' ok' [Hev|[Hev|Hev]]; try discriminate.
    apply in_app_or in Hev. destruct Hev as [Hev|[Hev|Hev]].
    + apply HnoAdd in Hev; contradiction.
    + injection Hev as <- <- <-. exact Hloop.
    + destruct (H3 _ Hev) as [[ok'' Heq]|[ok'' Heq]]; discriminate.
Qed.

Lemma processChunks_stored file src documents st acc st' :
  processChunks env file src documents st = (Ok acc, st') ->
  chunksInvariant file src documents acc.
Proof.
  intros E.
  destruct (processChunks_runs env file src documents st)
    as (r & evs & st1 & [E1 _] & _ & H).
  rewrite E in E1. injection E1 as <- <-. apply H.
Qed.

(** What [processSinglePDF] hands to [collection.add] is what the loop
    over the chunks of the parsed document has built. *)
Lemma stored_metadata_from_loop (filePath : jsstring) (st : St W)
      (c : Collection) (req : AddRequest) (ok : bool) :
  In (EvAdd c req ok) (events (processSinglePDF env filePath) st) ->
  exists documents,
    chunksInvariant (path_basename env filePath)
                    (sourceLabel env (path_basename env filePath))
                    documents
                    {| ids := add_ids req;
                       metadatas := add_metadatas req;
                       docTexts := add_documents req;
                       embeddings := add_embeddings req |}.
Proof.
  destruct (processSinglePDF_runs filePath st)
    as (r & evs & st' & R & res & _ & _ & _ & _ & Hadd).
  rewrite (runs_events _ _ _ _ _ R). intros Hin.
  destruct (Hadd c req ok Hin)
    as (documents & st1 & acc & st2 & E & Hids & Hmeta).
  exists documents.
  destruct (processChunks_stored _ _ _ _ _ _ E) as [H1 H2].
  split; simpl.
  - rewrite Hmeta. exact H1.
  - rewrite Hids, Hmeta. exact H2.
Qed.

End IngestOne.

(** ** Sorting and slicing *)

Section Sorting.

Context {A : Type} (key : A -> Q).

Lemma negative_lt (q : Q) : negative q = true <-> (q < 0)%Q.
Proof.
  unfold negative. rewrite negb_true_iff. split.
  - intros H. apply Qnot_le_lt. intros Hle.
    apply Qle_bool_iff in Hle. congruence.
  - intros H. destruct (Qle_bool 0 q) eqn:E; [|reflexivity].
    apply Qle_bool_iff in E. exfalso. exact (Qlt_not_le _ _ H E).
Qed.

Lemma sort_insert_in (x z : A) (l : list A) :
  In z (sort_insert (fun a b => (key a - key b)%Q) x l) <-> z = x \/ In z l.
Proof.
  induction l as [|y l IH]; simpl.
  - intuition.
  - destruct (negative (key x - key y)); simpl; [intuition|].
    rewrite IH. intuition.
Qed.

Lemma sort_insert_sorted (x : A) (l : list A) :
  StronglySorted (fun a b => (key a <= key b)%Q) l -> StronglySorted (fun a b => (key a <= key b)%Q) (sort_insert (fun a b => (key a - key b)%Q) x l).
Proof.
  induction 1 as [|y l Hs IH Hy]; simpl.
  - constructor; constructor.
  - destruct (negative (key x - key y)) eqn:E.
    + apply negative_lt in E.
      assert (Hxy : (key x <= key y)%Q).
      { apply Qlt_le_weak. apply Qlt_minus_iff in E.
        apply Qlt_minus_iff.
        setoid_replace (key y + - key x)%Q with (- (key x - key y))%Q
          by ring.
        setoid_replace (0 + - (key x - key y))%Q
          with (- (key x - key y))%Q in E by ring.
        exact E. }
      constructor; [constructor; assumption|].
      constructor; [exact Hxy|].
      rewrite Forall_forall in *. intros z Hz.
      eapply Qle_trans; [exact Hxy | apply Hy; exact Hz].
    + assert (Hyx : (key y <= key x)%Q).
      { destruct (Qlt_le_dec (key x) (key y)) as [Hlt|Hle]; [|exact Hle].
        exfalso. assert (Hn : negative (key x - key y) = true).
        { apply negative_lt. apply Qlt_minus_iff in Hlt.
          apply Qlt_minus_iff.
          setoid_replace (0 + - (key x - key y))%Q
            with (key y + - key x)%Q by ring.
          exact Hlt. }
        congruence. }
      constructor; [exact IH|].
      rewrite Forall_forall in *. intros z Hz.
      apply sort_insert_in in Hz. destruct Hz as [->|Hz]; auto.
Qed.

Lemma sort_insert_perm (cmp : A -> A -> Q) (x : A) (l : list A) :
  Permutation (x :: l) (sort_insert cmp x l).
Proof.
  induction l as [|y l IH]; simpl; [reflexivity|].
  destruct (negative (cmp x y)); [reflexivity|].
  rewrite perm_swap. apply perm_skip. exact IH.
Qed.

(** The sort keeps every result. *)
Lemma sort_perm (cmp : A -> A -> Q) (l : list A) :
  Permutation l (sort cmp l).
Proof.
  unfold sort.
  assert (G : forall acc,
             Permutation (acc ++ l)
               (fold_left (fun sorted x => sort_insert cmp x sorted) l acc)).
  { induction l as [|x l IH]; intros acc; simpl.
    - rewrite app_nil_r. reflexivity.
    - rewrite <- IH. rewrite <- Permutation_middle.
      apply (Permutation_app_tail l (sort_insert_perm cmp x acc)). }
  exact (G []).
Qed.

Lemma sort_sorted (l : list A) : StronglySorted (fun a b => (key a <= key b)%Q) (sort (fun a b => (key a - key b)%Q) l).
Proof.
  unfold sort.
  assert (G : forall acc, StronglySorted (fun a b => (key a <= key b)%Q) acc ->
                          StronglySorted (fun a b => (key a <= key b)%Q)
                            (fold_left (fun sorted x =>
                                          sort_insert (fun a b => (key a - key b)%Q) x sorted) l acc)).
  { induction l as [|x l IH]; intros acc Hacc; simpl; [exact Hacc|].
    apply IH. apply sort_insert_sorted. exact Hacc. }
  apply G. constructor.
Qed.

Lemma firstn_sorted (n : nat) (l : list A) :
  StronglySorted (fun a b => (key a <= key b)%Q) l -> StronglySorted (fun a b => (key a <= key b)%Q) (firstn n l).
Proof.
  intros Hs. revert n. induction Hs as [|y l Hs IH Hy]; intros [|n]; simpl;
    try constructor.
  - apply IH.
  - rewrite Forall_forall in *. intros z Hz. apply Hy.
    rewrite <- (firstn_skipn n l). apply in_or_app. left. exact Hz.
Qed.

Lemma slice0_sorted (e : Z) (l : list A) :
  StronglySorted (fun a b => (key a <= key b)%Q) l -> StronglySorted (fun a b => (key a <= key b)%Q) (slice0 e l).
Proof. intros Hs. unfold slice0. apply firstn_sorted. exact Hs. Qed.

Lemma slice0_length (e : Z) (l : list A) :
  (0 <= e)%Z -> (Z.of_nat (length (slice0 e l)) <= e)%Z.
Proof.
  intros He. unfold slice0. rewrite length_firstn.
  destruct (Z.ltb_spec e 0); lia.
Qed.

End Sorting.

(** ** Federated search *)

Section Search.

Context {W : Type} (env : Services W).

Variable query : jsstring.
Variable topK : Z.

Lemma queryCollection_runs (collectionInfo : CollectionInfo) :
  satisfies (queryCollection env query topK collectionInfo)
    (fun _ evs => Visit query topK (name collectionInfo) evs).
Proof.
  intros st. unfold queryCollection, createEmbedding. unfold_monad.
  destruct (getCollection env _ (world st)) as [[coll|e] w1]; simpl.
  2:{ do 3 eexists. split; [done_runs | constructor]. }
  destruct (embeddings_create env query w1) as [[emb|e] w2]; simpl.
  2:{ do 3 eexists. split; [done_runs | constructor]. }
  destruct (collection_query env coll emb topK w2) as [[results|e] w3];
    simpl.
  2:{ do 3 eexists. split; [done_runs | constructor]. }
  destruct results as [[|h hs]|]; simpl;
    (do 3 eexists; split; [done_runs | constructor]).
Qed.

Lemma searchLoop_runs (collections : list CollectionInfo) :
  forall acc st,
  exists allResults evs st',
    runs (foldM (fun allResults collectionInfo =>
                   try_catch
                     (resultsWithSource <-
                        queryCollection env query topK collectionInfo ;;
                      ret (allResults ++ resultsWithSource))
                     (fun _ => ret allResults))
                collections acc)
         st (Ok allResults) evs st'
    /\ Visits query topK (map name collections) evs.
Proof.
  induction collections as [|ci collections IH]; intros acc st; simpl.
  - exists acc, [], st. split; [apply runs_ret | constructor].
  - destruct (queryCollection_runs ci st) as (r & evs1 & st1 & R1 & V1).
    destruct r as [found|e].
    + destruct (IH (acc ++ found) st1) as (res & evs2 & st2 & R2 & V2).
      exists res, (evs1 ++ evs2), st2. split; [|constructor; assumption].
      eapply runs_bind; [|exact R2].
      apply runs_try_ok.
      rewrite <- (app_nil_r evs1).
      eapply runs_bind; [exact R1 | apply runs_ret].
    + destruct (IH acc st1) as (res & evs2 & st2 & R2 & V2).
      exists res, (evs1 ++ evs2), st2. split; [|constructor; assumption].
      eapply runs_bind; [|exact R2].
      rewrite <- (app_nil_r evs1).
      eapply runs_try_catch; [|apply runs_ret].
      apply runs_bind_throw. exact R1.
Qed.

(** The course of [searchAllCollections]: the registry is loaded, every
    collection is visited in turn, and the merged results are sorted and
    cut. *)
Lemma searchAllCollections_runs (st : St W) :
  exists collections evs0 st0 allResults evs1 st1,
    runs (loadCollectionNames env) st (Ok collections) evs0 st0
    /\ (evs0 = [] \/ exists ok, evs0 = [EvRead (collectionsFile env) ok])
    /\ runs (searchLoop env query topK collections) st0 (Ok allResults)
            evs1 st1
    /\ Visits query topK (map name collections) evs1
    /\ runs (searchAllCollections env query topK) st
            (Ok (slice0 (topK * 2)
                        (sort (fun a b => (distance a - distance b)%Q)
                              allResults)))
            (evs0 ++ evs1) st1.
Proof.
  destruct (loadCollectionNames_runs env st)
    as (r & evs0 & st0 & R0 & [collections ->] & H0).
  destruct (searchLoop_runs collections [] st0)
    as (allResults & evs1 & st1 & R1 & V1).
  exists collections, evs0, st0, allResults, evs1, st1.
  split; [exact R0|]. split; [exact H0|]. split; [exact R1|].
  split; [exact V1|].
  unfold searchAllCollections. apply runs_rethrow.
  eapply runs_bind; [exact R0|].
  rewrite <- (app_nil_r evs1).
  eapply runs_bind; [exact R1 | apply runs_ret].
Qed.

(** In the events of the loop, the embedding service is called once for
    each handle obtained. *)
Lemma Visits_embeds (names : list jsstring) (evs : list Event) :
  Visits query topK names evs ->
  countEmbeds evs = length (filter isHandle evs)
  /\ countEmbeds evs <= length names
  /\ forall ev, In ev evs -> isEmbed ev = true ->
                exists r, ev = EvEmbed query r.
Proof.
  unfold countEmbeds.
  induction 1 as [|nm names evs1 evs2 V1 V2 (IH1 & IH2 & IH3)]; simpl.
  - repeat split; auto. intros ev [].
  - rewrite !filter_app, !length_app.
    destruct V1; simpl; (split; [lia|]; split; [lia|]);
      intros ev Hev Hemb; simpl in Hev;
      repeat (destruct Hev as [<-|Hev];
              [try discriminate; eexists; reflexivity|]);
      apply IH3; assumption.
Qed.

(** When every handle is obtained, the embedding service is called once
    per collection. *)
Lemma Visits_embeds_all (names : list jsstring) (evs : list Event) :
  Visits query topK names evs ->
  (forall nm, ~ In (EvGetCollection nm false) evs) ->
  countEmbeds evs = length names.
Proof.
  unfold countEmbeds.
  induction 1 as [|nm names evs1 evs2 V1 V2 IH]; intros Hno; simpl.
  - reflexivity.
  - rewrite filter_app, length_app, IH.
    + destruct V1; simpl; try reflexivity.
      exfalso. apply (Hno nm). left. reflexivity.
    + intros nm' Hin. apply (Hno nm'). apply in_or_app. right. exact Hin.
Qed.

(** Every query of a collection comes right after the embedding call of
    the same turn and is passed the vector that call returned. *)
Lemma Visits_query_embedding (names : list jsstring) (evs : list Event) :
  Visits query topK names evs ->
  forall c e k ok,
    In (EvQuery c e k ok) evs ->
    exists before after,
      evs = before ++ [EvEmbed query (Some e); EvQuery c e k ok] ++ after.
Proof.
  induction 1 as [|nm names evs1 evs2 V1 V2 IH]; intros c e k ok Hin.
  - destruct Hin.
  - apply in_app_or in Hin. destruct Hin as [Hin|Hin].
    + destruct V1; simpl in Hin;
        repeat (destruct Hin as [Hin|Hin]; try discriminate);
        try contradiction.
      injection Hin as <- <- <- <-.
      exists [EvGetCollection nm true], evs2. reflexivity.
    + destruct (IH c e k ok Hin) as (before & after & ->).
      exists (evs1 ++ before), after. rewrite <- app_assoc. reflexivity.
Qed.

End Search.

(** ** Answering a question *)

Section Answer.

Context {W : Type} (env : Services W).

Lemma generateResponse_runs (userQuestion : jsstring)
      (relevantResults : list SearchResult) :
  satisfies (generateResponse env userQuestion relevantResults)
    (fun r evs =>
       evs = [EvGenerate (prompt_head env ++ contextText relevantResults
                          ++ prompt_tail env)
                         userQuestion (value_of r)]).
Proof.
  intros st. unfold generateResponse. unfold_monad.
  destruct (chat_create env _ userQuestion (world st)) as [[out|e] w1];
    simpl; (do 3 eexists; split; [done_runs | reflexivity]).
Qed.

(** The course of [handleUserQuestion]: the search, then either the
    fixed message for an empty result, or the generation call, whose
    output is returned and whose failure gives the apology. *)
Lemma handleUserQuestion_runs (question : jsstring) (st : St W) :
  exists searchResults evs1 st1,
    runs (searchAllCollections env question defaultTopK) st
         (Ok searchResults) evs1 st1
    /\ ((searchResults = []
         /\ runs (handleUserQuestion env question) st (Ok notFoundMessage)
                 evs1 st1)
        \/ (searchResults <> []
            /\ exists r2 evs2 st2,
                runs (generateResponse env question searchResults) st1 r2
                     evs2 st2
                /\ runs (handleUserQuestion env question) st
                        (Ok (match r2 with
                             | Ok content => content
                             | Throw _ => apologyMessage
                             end))
                        (evs1 ++ evs2) st2)).
Proof.
  destruct (searchAllCollections_runs env question defaultTopK st)
    as (collections & evs0 & st0 & allResults & evs1 & st1
        & _ & _ & _ & _ & R).
  set (searchResults :=
         slice0 (defaultTopK * 2)
                (sort (fun a b => (distance a - distance b)%Q) allResults))
    in *.
  exists searchResults, (evs0 ++ evs1), st1. split; [exact R|].
  destruct searchResults as [|x xs] eqn:E.
  - left. split; [reflexivity|].
    unfold handleUserQuestion. apply runs_try_ok.
    rewrite <- (app_nil_r (evs0 ++ evs1)).
    eapply runs_bind; [exact R|]. simpl. apply runs_ret.
  - right. split; [discriminate|].
    destruct (generateResponse_runs question (x :: xs) st1)
      as (r2 & evs2 & st2 & R2 & _).
    exists r2, evs2, st2. split; [exact R2|].
    unfold handleUserQuestion. destruct r2 as [content|e].
    + apply runs_try_ok. eapply runs_bind; [exact R|]. exact R2.
    + rewrite <- (app_nil_r ((evs0 ++ evs1) ++ evs2)).
      eapply runs_try_catch; [|apply runs_ret].
      eapply runs_bind; [exact R|]. exact R2.
Qed.

Lemma handleUserQuestion_returns (question : jsstring) (st : St W) :
  exists s st', handleUserQuestion env question st = (Ok s, st').
Proof.
  destruct (handleUserQuestion_runs question st)
    as (res & evs1 & st1 & _ & [[_ [E _]] | [_ (r2 & evs2 & st2 & _ & [E _])]]);
    eauto.
Qed.

End Answer.

(* ================================================================== *)
(** * The specification, claim by claim *)
(* ================================================================== *)

(** C1, as the code has it.  In a federated search over the collections
    of the registry, the embedding service is called inside the loop:
    once for each collection whose handle is obtained, always on the query
    text, hence once per collection when every handle is obtained; and each
    nearest-neighbour query is passed the vector returned by the embedding
    call made just before it, in the same turn of the loop. *)
Theorem search_embeds_per_collection :
  forall (W : Type) (env : Services W) (query : jsstring) (topK : Z)
         (st : St W),
  exists collections evs0 st0 evs1,
    runs (loadCollectionNames env) st (Ok collections) evs0 st0
    /\ events (searchAllCollections env query topK) st = evs0 ++ evs1
    /\ countEmbeds evs0 = 0
    /\ Visits query topK (map name collections) evs1
    /\ countEmbeds evs1 = length (filter isHandle evs1)
    /\ (forall ev, In ev evs1 -> isEmbed ev = true ->
                   exists r, ev = EvEmbed query r)
    /\ ((forall nm, ~ In (EvGetCollection nm false) evs1) ->
        countEmbeds (events (searchAllCollections env query topK) st)
        = length collections)
    /\ (forall c e k ok,
           In (EvQuery c e k ok) evs1 ->
           exists before after,
             evs1 = before ++ [EvEmbed query (Some e); EvQuery c e k ok]
                           ++ after).
Proof.
  intros W env query topK st.
  destruct (searchAllCollections_runs env query topK st)
    as (collections & evs0 & st0 & allResults & evs1 & st1
        & R0 & H0 & _ & V & R).
  exists collections, evs0, st0, evs1.
  assert (E0 : countEmbeds evs0 = 0)
    by (destruct H0 as [->|[ok ->]]; reflexivity).
  destruct (Visits_embeds query topK _ _ V) as (Hc & _ & Hq).
  rewrite (runs_events _ _ _ _ _ R).
  split; [exact R0|]. split; [reflexivity|]. split; [exact E0|].
  split; [exact V|]. split; [exact Hc|]. split; [exact Hq|].
  split.
  - intros Hall. unfold countEmbeds in *.
    rewrite filter_app, length_app, E0. simpl.
    rewrite <- (length_map name collections).
    apply (Visits_embeds_all query topK); assumption.
  - apply (Visits_query_embedding query topK _ _ V).
Qed.

(** C1, as stated, fails: with two collections in the registry, one
    search calls the embedding service twice. *)
Lemma search_embeds_twice_for_two_collections :
  (exists a b,
      fst (run (loadCollectionNames Sim.services) Scenario.two)
      = Ok [a; b])
  /\ countEmbeds
       (trace (snd (run (searchAllCollections Sim.services
                                              (js "education") 3)
                        Scenario.two)))
     = 2.
Proof. split; [do 2 eexists|]; vm_compute; reflexivity. Qed.

(** C7.  For a positive [topK], whatever the services return, federated
    search returns its results in order of non-decreasing distance, and at
    most [topK * 2] of them. *)
Theorem search_sorted_and_bounded :
  forall (W : Type) (env : Services W) (query : jsstring) (topK : Z)
         (st : St W),
    (0 < topK)%Z ->
    exists results st',
      searchAllCollections env query topK st = (Ok results, st')
      /\ ascending results
      /\ (Z.of_nat (length results) <= topK * 2)%Z.
Proof.
  intros W env query topK st Hk.
  destruct (searchAllCollections_runs env query topK st)
    as (collections & evs0 & st0 & allResults & evs1 & st1
        & _ & _ & _ & _ & [E _]).
  do 2 eexists. split; [exact E|]. split.
  - apply (slice0_sorted distance). apply (sort_sorted distance).
  - apply slice0_length. lia.
Qed.

Lemma search_sorted_and_bounded_witness :
  exists results st',
    searchAllCollections Sim.services (js "education") 3
      {| world := Scenario.two; trace := [] |} = (Ok results, st')
    /\ ascending results
    /\ (Z.of_nat (length results) <= 3 * 2)%Z.
Proof.
  apply (search_sorted_and_bounded Sim.World Sim.services (js "education")
           3 {| world := Scenario.two; trace := [] |}).
  reflexivity.
Defined.

(** C9.  In the metadata of every stored chunk, a positive
    [overlapLength] comes with [hasOverlap = true] and is the length of the
    detected overlap, which is more than 20 characters long; and a
    detected overlap of 20 characters or fewer is recorded as
    [hasOverlap = false], [overlapWith = ""] and [overlapLength = 0]. *)
Theorem overlap_metadata_threshold :
  forall (W : Type) (env : Services W) (file src : jsstring)
         (documents : list Document) (st : St W) (acc : Arrays)
         (st' : St W),
    processChunks env file src documents st = (Ok acc, st') ->
    forall m, In m (metadatas acc) ->
      exists chunkText,
        StoredChunk documents (chunkIndex m) chunkText
        /\ (0 < overlapLength m ->
            hasOverlap m = true
            /\ exists overlap,
                detectOverlap documents (chunkIndex m) chunkText
                = Some overlap
                /\ overlapLength m = length overlap
                /\ 20 < length overlap)
        /\ (forall overlap,
               detectOverlap documents (chunkIndex m) chunkText
               = Some overlap ->
               length overlap <= 20 ->
               hasOverlap m = false
               /\ overlapWith m = []
               /\ overlapLength m = 0).
Proof.
  intros W env file src documents st acc st' E m Hm.
  destruct (processChunks_stored env _ _ _ _ _ _ E) as [Hmeta _].
  destruct (Hmeta m Hm) as (chunkText & Hstored & Heq).
  exists chunkText. split; [exact Hstored|].
  set (i := chunkIndex m) in *. clearbody i. subst m.
  unfold chunkMetadata, overlapInfoOf; simpl.
  destruct (detectOverlap documents i chunkText) as [overlap|]; simpl.
  - destruct (Nat.ltb_spec 20 (length overlap)) as [Hlt|Hle]; simpl.
    + split.
      * intros _. split; [reflexivity|]. exists overlap. auto.
      * intros o [= <-] Ho. lia.
    + split; [lia|]. intros o _ _. auto.
  - split; [lia|]. intros o Ho. discriminate.
Qed.

Lemma overlap_metadata_threshold_witness :
  exists chunkText,
    StoredChunk Scenario.adjacent (chunkIndex Scenario.adjacentSecond)
                chunkText
    /\ (0 < overlapLength Scenario.adjacentSecond ->
        hasOverlap Scenario.adjacentSecond = true
        /\ exists overlap,
            detectOverlap Scenario.adjacent
                          (chunkIndex Scenario.adjacentSecond) chunkText
            = Some overlap
            /\ overlapLength Scenario.adjacentSecond = length overlap
            /\ 20 < length overlap)
    /\ (forall overlap,
           detectOverlap Scenario.adjacent
                         (chunkIndex Scenario.adjacentSecond) chunkText
           = Some overlap ->
           length overlap <= 20 ->
           hasOverlap Scenario.adjacentSecond = false
           /\ overlapWith Scenario.adjacentSecond = []
           /\ overlapLength Scenario.adjacentSecond = 0).
Proof.
  apply (overlap_metadata_threshold Sim.World Sim.services
           (js "cv_jay.pdf") (js "cv") Scenario.adjacent
           {| world := Scenario.withChunks Scenario.adjacent; trace := [] |}
           (match fst (Scenario.chunksOf Scenario.adjacent) with
            | Ok acc => acc
            | Throw _ => noArrays
            end)
           (snd (Scenario.chunksOf Scenario.adjacent))).
  - vm_compute. reflexivity.
  - vm_compute. right. left. reflexivity.
Defined.

(** C3, as the code has it.  For every stored chunk, the overlap recorded
    in its metadata is computed against the raw chunk just before it in
    the extraction sequence, [documents[i - 1]]: an overlap is recorded
    exactly when there is such a chunk, its text is not empty, and
    [findTextOverlap] of that text and the chunk's text is more than 20
    characters long; it is then recorded with that length and with a
    reference to chunk [i - 1]. *)
Theorem overlap_against_raw_predecessor :
  forall (W : Type) (env : Services W) (file src : jsstring)
         (documents : list Document) (st : St W) (acc : Arrays)
         (st' : St W),
    processChunks env file src documents st = (Ok acc, st') ->
    forall m, In m (metadatas acc) ->
      exists chunkText,
        StoredChunk documents (chunkIndex m) chunkText
        /\ (hasOverlap m = true <->
            exists prev prevText,
              0 < chunkIndex m
              /\ nth_error documents (chunkIndex m - 1) = Some prev
              /\ chunkTextOf prev = Some prevText
              /\ prevText <> []
              /\ 20 < length (findTextOverlap prevText chunkText))
        /\ (forall prev prevText,
               0 < chunkIndex m ->
               nth_error documents (chunkIndex m - 1) = Some prev ->
               chunkTextOf prev = Some prevText ->
               prevText <> [] ->
               20 < length (findTextOverlap prevText chunkText) ->
               overlapLength m
               = length (findTextOverlap prevText chunkText)
               /\ overlapWith m = js "chunk_" ++ dec (chunkIndex m - 1)).
Proof.
  intros W env file src documents st acc st' E m Hm.
  destruct (processChunks_stored env _ _ _ _ _ _ E) as [Hmeta _].
  destruct (Hmeta m Hm) as (chunkText & Hstored & Heq).
  exists chunkText. split; [exact Hstored|].
  set (i := chunkIndex m) in *. clearbody i. subst m.
  unfold chunkMetadata, overlapInfoOf, detectOverlap; simpl.
  destruct (Nat.ltb_spec 0 i) as [Hi|Hi].
  2:{ split; [split; [discriminate | intros (? & ? & ? & _); lia]|].
      intros; lia. }
  destruct (nth_error documents (i - 1)) as [prev|] eqn:Hprev.
  2:{ split; [split; [discriminate | intros (? & ? & _ & ? & _); discriminate]|].
      intros; discriminate. }
  destruct (chunkTextOf prev) as [[|c prevText]|] eqn:Htext.
  - split; [split; [discriminate|]|].
    + intros (p & t & _ & [= <-] & Ht & Hne & _).
      rewrite Htext in Ht. injection Ht as <-. congruence.
    + intros p t _ [= <-] Ht Hne _. rewrite Htext in Ht.
      injection Ht as <-. congruence.
  - destruct (Nat.ltb_spec 20
                (length (findTextOverlap (c :: prevText) chunkText)))
      as [Hlt|Hle]; simpl.
    + split; [split; [|reflexivity]|].
      * intros _. exists prev, (c :: prevText).
        repeat split; auto. discriminate.
      * intros p t _ [= <-] Ht _ _. rewrite Htext in Ht.
        injection Ht as <-. split; reflexivity.
    + split; [split; [discriminate|]|].
      * intros (p & t & _ & [= <-] & Ht & _ & Hlt).
        rewrite Htext in Ht. injection Ht as <-. lia.
      * intros p t _ [= <-] Ht _ Hlt. rewrite Htext in Ht.
        injection Ht as <-. lia.
  - split; [split; [discriminate|]|].
    + intros (p & t & _ & [= <-] & Ht & _). rewrite Htext in Ht.
      discriminate.
    + intros p t _ [= <-] Ht. rewrite Htext in Ht. discriminate.
Qed.

Lemma overlap_against_raw_predecessor_witness :
  exists chunkText,
    StoredChunk Scenario.adjacent (chunkIndex Scenario.adjacentSecond)
                chunkText
    /\ (hasOverlap Scenario.adjacentSecond = true <->
        exists prev prevText,
          0 < chunkIndex Scenario.adjacentSecond
          /\ nth_error Scenario.adjacent
                       (chunkIndex Scenario.adjacentSecond - 1) = Some prev
          /\ chunkTextOf prev = Some prevText
          /\ prevText <> []
          /\ 20 < length (findTextOverlap prevText chunkText))
    /\ (forall prev prevText,
           0 < chunkIndex Scenario.adjacentSecond ->
           nth_error Scenario.adjacent
                     (chunkIndex Scenario.adjacentSecond - 1) = Some prev ->
           chunkTextOf prev = Some prevText ->
           prevText <> [] ->
           20 < length (findTextOverlap prevText chunkText) ->
           overlapLength Scenario.adjacentSecond
           = length (findTextOverlap prevText chunkText)
           /\ overlapWith Scenario.adjacentSecond
              = js "chunk_" ++ dec (chunkIndex Scenario.adjacentSecond - 1)).
Proof.
  apply (overlap_against_raw_predecessor Sim.World Sim.services
           (js "cv_jay.pdf") (js "cv") Scenario.adjacent
           {| world := Scenario.withChunks Scenario.adjacent; trace := [] |}
           (match fst (Scenario.chunksOf Scenario.adjacent) with
            | Ok acc => acc
            | Throw _ => noArrays
            end)
           (snd (Scenario.chunksOf Scenario.adjacent))).
  - vm_compute. reflexivity.
  - vm_compute. right. left. reflexivity.
Defined.

(** C3, as stated, fails: the third chunk of [Scenario.gapped] is stored
    and is not the first stored chunk; the nearest non-empty chunk before
    it is the first chunk, with which it shares 44 characters; yet the raw
    chunk before it is empty, and its metadata records no overlap. *)
Lemma overlap_ignores_preceding_nonempty_chunk :
  exists acc st' prevText chunkText,
    Scenario.chunksOf Scenario.gapped = (Ok acc, st')
    /\ In Scenario.gappedThird (metadatas acc)
    /\ chunkIndex Scenario.gappedThird = 2
    /\ StoredChunk Scenario.gapped 0 prevText
    /\ StoredChunk Scenario.gapped 2 chunkText
    /\ precedingNonEmpty Scenario.gapped 2 = Some prevText
    /\ length (findTextOverlap prevText chunkText) = 44
    /\ hasOverlap Scenario.gappedThird = false
    /\ overlapLength Scenario.gappedThird = 0.
Proof.
  do 4 eexists.
  split; [vm_compute; reflexivity|].
  split; [vm_compute; right; left; reflexivity|].
  split; [reflexivity|].
  split; [eexists; split; [reflexivity|];
          split; [reflexivity | vm_compute; reflexivity]|].
  split; [eexists; split; [reflexivity|];
          split; [reflexivity | vm_compute; reflexivity]|].
  split; [vm_compute; reflexivity|].
  split; vm_compute; auto.
Qed.

(** C5, as the code has it.  [processSinglePDF] never throws.  It returns
    [null] exactly when the creation of the collection, the parsing, an
    embedding call or the batch write throws, and otherwise the generated
    collection id, the one the collection was created with.  So it returns
    the id when no chunk is stored, and when the append to the registry
    fails: an append is only attempted on the way to returning the id. *)
Theorem processSinglePDF_null_iff_fatal :
  forall (W : Type) (env : Services W) (filePath : jsstring) (st : St W),
  exists res st',
    processSinglePDF env filePath st = (Ok res, st')
    /\ (res = None <->
        existsb fatalFailure (events (processSinglePDF env filePath) st)
        = true)
    /\ (forall id,
           res = Some id ->
           In (EvCreateCollection id true)
              (events (processSinglePDF env filePath) st))
    /\ (forall p entry ok,
           In (EvAppend p entry ok)
              (events (processSinglePDF env filePath) st) ->
           exists id, res = Some id).
Proof.
  intros W env filePath st.
  destruct (processSinglePDF_runs env filePath st)
    as (r & evs & st' & R & res & -> & Hnull & Hid & Happ & _).
  rewrite (runs_events _ _ _ _ _ R).
  exists res, st'. split; [apply R|]. split; [exact Hnull|].
  split; [exact Hid|].
  intros p entry ok Hin. destruct (Happ p entry ok Hin) as (id & H & _).
  exists id. exact H.
Qed.

(** C5, as stated, fails: for a document whose only chunk is white space
    the collection id is returned, nothing having been written or
    registered; and when the registry file cannot be appended to, the
    collection id is returned as well. *)
Lemma id_returned_for_empty_document_and_failed_append :
  (exists id st',
      run (processSinglePDF Sim.services (js "doc/scan.pdf"))
          Scenario.blankDocument = (Ok (Some id), st')
      /\ trace st' = [EvCreateCollection id true;
                      EvLoadData (js "doc/scan.pdf") true])
  /\ (exists id st',
         run (processSinglePDF Sim.services (js "doc/resume_jay.pdf"))
             Scenario.readOnlyRegistry = (Ok (Some id), st')
         /\ In (EvAppend Sim.registryPath
                         (registryLine id (js "document:resume_jay.pdf"))
                         false)
               (trace st')
         /\ Sim.registryFile (world st') = None).
Proof.
  split; do 2 eexists.
  - split; vm_compute; reflexivity.
  - split; [vm_compute; reflexivity|].
    split; [vm_compute; do 4 right; left; reflexivity|].
    vm_compute; reflexivity.
Qed.

(** ** The line written to the registry *)

Lemma split_no_separator (c : N) (s : jsstring) :
  ~ In c s -> split c s = [s].
Proof.
  induction s as [|x s IH]; intros Hc; simpl; [reflexivity|].
  destruct (N.eqb_spec x c) as [->|Hne].
  - exfalso. apply Hc. left. reflexivity.
  - rewrite IH; [reflexivity|]. intros Hin. apply Hc. right. exact Hin.
Qed.

Lemma split_at_first (c : N) (a b : jsstring) :
  ~ In c a -> split c (a ++ c :: b) = a :: split c b.
Proof.
  induction a as [|x a IH]; intros Hc; simpl.
  - rewrite N.eqb_refl. reflexivity.
  - destruct (N.eqb_spec x c) as [->|Hne].
    + exfalso. apply Hc. left. reflexivity.
    + rewrite IH; [reflexivity|]. intros Hin. apply Hc. right. exact Hin.
Qed.

Lemma split_single (c : N) (s : jsstring) :
  length (split c s) <= 1 -> split c s = [s].
Proof.
  induction s as [|x s IH]; simpl; [reflexivity|].
  destruct (N.eqb x c).
  - pose proof (split_not_nil c s) as Hne.
    destruct (split c s); [congruence | simpl; lia].
  - destruct (split c s) as [|w ws] eqn:E;
      [exfalso; exact (split_not_nil c s E)|].
    simpl. intros Hlen. simpl in IH. specialize (IH Hlen).
    injection IH as -> ->. reflexivity.
Qed.

(** The label is the first [_]-separated token of the file name, in lower
    case: the whole name when it has no [_]. *)
Lemma sourceLabel_first_token {W : Type} (env : Services W)
      (file : jsstring) :
  sourceLabel env file = toLowerCase env (hd [] (split UNDERSCORE file)).
Proof.
  unfold sourceLabel.
  destruct (Nat.ltb_spec 1 (length (split UNDERSCORE file))) as [H|H];
    [reflexivity|].
  rewrite (split_single _ _ H). reflexivity.
Qed.

(** C6, as the code has it.  The line [processSinglePDF] appends to the
    registry for the collection [id] is [id|document:<file name>]: read
    back by [loadCollectionNames], its source is the text [document:]
    followed by the file name.  The label derived from the file name
    (its first [_]-separated token, in lower case) is what every stored
    chunk's metadata carries as [source]. *)
Theorem registry_source_is_document_filename :
  forall (W : Type) (env : Services W) (filePath : jsstring) (st : St W),
    (forall p entry ok,
        In (EvAppend p entry ok)
           (events (processSinglePDF env filePath) st) ->
        exists id,
          In (EvCreateCollection id true)
             (events (processSinglePDF env filePath) st)
          /\ p = collectionsFile env
          /\ entry = registryLine id (js "document:"
                                      ++ path_basename env filePath))
    /\ (forall id,
           pipeFree id -> pipeFree (path_basename env filePath) ->
           parseLine (id ++ js "|" ++ js "document:"
                      ++ path_basename env filePath)
           = {| name := id;
                info_source :=
                  Some (js "document:" ++ path_basename env filePath) |})
    /\ (forall c req ok m,
           In (EvAdd c req ok)
              (events (processSinglePDF env filePath) st) ->
           In m (add_metadatas req) ->
           source m
           = toLowerCase env
               (hd [] (split UNDERSCORE (path_basename env filePath)))).
Proof.
  intros W env filePath st.
  destruct (processSinglePDF_runs env filePath st)
    as (r & evs & st' & R & res & -> & _ & _ & Happ & _).
  rewrite (runs_events _ _ _ _ _ R).
  split; [|split].
  - intros p entry ok Hin.
    destruct (Happ p entry ok Hin) as (id & _ & H). exists id. exact H.
  - intros id Hid Hfile. unfold parseLine.
    change (id ++ js "|" ++ js "document:" ++ path_basename env filePath)
      with (id ++ PIPE :: (js "document:" ++ path_basename env filePath)).
    rewrite split_at_first by exact Hid.
    rewrite split_no_separator; [reflexivity|].
    intros Hin. apply in_app_or in Hin. destruct Hin as [Hin|Hin].
    + vm_compute in Hin. repeat (destruct Hin as [Hin|Hin];
                                 [discriminate|]). exact Hin.
    + exact (Hfile Hin).
  - intros c req ok m Hin Hm.
    rewrite <- sourceLabel_first_token.
    rewrite <- (runs_events _ _ _ _ _ R) in Hin.
    destruct (stored_metadata_from_loop env filePath st c req ok Hin)
      as (documents & Hmeta & _).
    destruct (Hmeta m Hm) as (chunkText & _ & ->). reflexivity.
Qed.

(** C6, as stated, fails: after the ingestion of [resume_jay.pdf], the
    record read back from the registry has the source
    [document:resume_jay.pdf], and the label derived from the file name is
    [resume]. *)
Lemma registry_source_not_label :
  (exists id,
      fst (loadCollectionNames Sim.services
             (snd (run (processSinglePDF Sim.services
                                         (js "doc/resume_jay.pdf"))
                       Scenario.fresh)))
      = Ok [{| name := id;
               info_source := Some (js "document:resume_jay.pdf") |}])
  /\ sourceLabel Sim.services (js "resume_jay.pdf") = js "resume".
Proof. split; [eexists|]; vm_compute; reflexivity. Qed.

(** C4, as the code has it.  The reset at the start of [initialize]
    catches its own errors: whether the registry file is deleted or the
    deletion throws, [clearCollectionsFile] returns normally, and
    [initialize] goes on, from the state the attempt left, to enumerate
    the files and to process them. *)
Theorem initialize_continues_after_reset :
  forall (W : Type) (env : Services W) (depth : nat) (st : St W),
  exists evs st1,
    runs (clearCollectionsFile env) st (Ok tt) evs st1
    /\ (evs = [] \/ exists ok, evs = [EvUnlink (collectionsFile env) ok])
    /\ initialize env depth st
       = (files <- getAllFiles env depth (js "./doc") ;;
          processAllPDFs env files ;;;
          ret tt) st1.
Proof.
  intros W env depth st.
  destruct (clearCollectionsFile_runs env st)
    as (r & evs & st1 & R & -> & H).
  exists evs, st1. split; [exact R|]. split; [exact H|].
  unfold initialize. unfold bind at 1. destruct R as [-> _]. reflexivity.
Qed.

(** C4, as stated, fails: when the stale registry file cannot be deleted,
    the run still parses [resume_jay.pdf] and appends its record after
    the stale one. *)
Lemma failed_reset_does_not_abort :
  exists id st',
    run (initialize Sim.services 8) Scenario.staleRegistry = (Ok tt, st')
    /\ In (EvUnlink Sim.registryPath false) (trace st')
    /\ In (EvLoadData (js "doc/resume_jay.pdf") true) (trace st')
    /\ In (EvAppend Sim.registryPath
                    (registryLine id (js "document:resume_jay.pdf")) true)
          (trace st')
    /\ Sim.registryFile (world st')
       = Some (Scenario.staleLine
               ++ registryLine id (js "document:resume_jay.pdf")).
Proof.
  exists (js "doc_resume_jay_1717_k3x9qa"). eexists.
  split; [vm_compute; reflexivity|].
  split; [vm_compute; left; reflexivity|].
  split; [vm_compute; do 4 right; left; reflexivity|].
  split; [vm_compute; do 7 right; left; reflexivity|].
  vm_compute; reflexivity.
Qed.

(** C10, as the code has it.  [handleUserQuestion] always returns a
    string and never throws.  The search itself never throws: a failed
    registry read gives an empty registry, and a collection whose handle,
    embedding or query fails is skipped.  The answer is the fixed
    not-found message when the search returns nothing; otherwise it is the
    output of the generation call, or the fixed apology when that call
    throws. *)
Theorem handleUserQuestion_total :
  forall (W : Type) (env : Services W) (question : jsstring) (st : St W),
  exists answer st' searchResults st1,
    handleUserQuestion env question st = (Ok answer, st')
    /\ searchAllCollections env question defaultTopK st
       = (Ok searchResults, st1)
    /\ (searchResults = [] -> answer = notFoundMessage /\ st' = st1)
    /\ (searchResults <> [] ->
        match fst (chat_create env
                     (prompt_head env ++ contextText searchResults
                      ++ prompt_tail env)
                     question (world st1)) with
        | Ok content => answer = content
        | Throw _ => answer = apologyMessage
        end).
Proof.
  intros W env question st.
  destruct (handleUserQuestion_runs env question st)
    as (res & evs1 & st1 & [E1 _]
        & [[-> [E _]] | [Hne (r2 & evs2 & st2 & [E2 _] & [E _])]]).
  - exists notFoundMessage, st1, [], st1.
    split; [exact E|]. split; [exact E1|].
    split; [auto | congruence].
  - eexists. exists st2, res, st1.
    split; [exact E|]. split; [exact E1|].
    split; [congruence|]. intros _.
    revert E2. unfold generateResponse. unfold_monad.
    destruct (chat_create env _ question (world st1)) as [[out|e] w1];
      simpl; intros [= <- _]; reflexivity.
Qed.

(** C10, as stated, fails: when every embedding call throws, the answer
    is the not-found message and not the apology; and when one of two
    collections is gone from the store, the answer is the output of the
    generation call. *)
Lemma embedding_failure_gives_not_found :
  (exists st',
      run (handleUserQuestion Sim.services (js "Where did Jay study?"))
          Scenario.noEmbedding = (Ok notFoundMessage, st')
      /\ In (EvEmbed (js "Where did Jay study?") None) (trace st'))
  /\ (exists st',
         run (handleUserQuestion Sim.services (js "Where did Jay study?"))
             Scenario.oneGone = (Ok (js "I studied at Dalhousie."), st')
         /\ In (EvGetCollection (js "doc_cv_1_aaaaaa") false) (trace st'))
  /\ notFoundMessage <> apologyMessage.
Proof.
  split; [|split].
  - eexists. split; [vm_compute; reflexivity|].
    vm_compute. do 2 right. left. reflexivity.
  - eexists. split; [vm_compute; reflexivity|].
    vm_compute. right. left. reflexivity.
  - vm_compute. discriminate.
Qed.

(** ** The two routes *)

Lemma not_blank_not_empty (q : jsstring) : ~ blank q -> q <> [].
Proof. intros H ->. apply H. reflexivity. Qed.

Lemma not_blank_trim (q : jsstring) : ~ blank q -> jseqb (trim q) [] = false.
Proof.
  intros H. destruct (jseqb (trim q) []) eqn:E; [|reflexivity].
  apply jseqb_eq in E. contradiction.
Qed.

Lemma not_empty_truthy (q : jsstring) : q <> [] -> falsy (JString q) = false.
Proof. destruct q; [congruence | reflexivity]. Qed.

Section Routes.

Context {W : Type} (env : Services W).

Lemma api_ask_answers (q : jsstring) (st : St W) :
  q <> [] ->
  exists answer st',
    handleUserQuestion env q st = (Ok answer, st')
    /\ api_ask env (Body (JString q)) st
       = (Ok {| status := 200; body := AnswerBody answer |}, st').
Proof.
  intros Hq.
  destruct (handleUserQuestion_returns env q st) as (answer & st' & E).
  exists answer, st'. split; [exact E|].
  unfold api_ask. rewrite (not_empty_truthy q Hq). simpl.
  unfold try_catch, bind. rewrite E. reflexivity.
Qed.

Lemma api_ask_rejects (question : JsValue) (st : St W) :
  falsy question = true \/ not_a_string question = true ->
  api_ask env (Body question) st
  = (Ok {| status := 400; body := ErrorBody (js "Question is required.") |},
     st).
Proof.
  intros H. unfold api_ask.
  assert (E : falsy question || not_a_string question = true)
    by (destruct H as [-> | ->]; [reflexivity | apply orb_true_r]).
  rewrite E. reflexivity.
Qed.

Lemma POST_rejects (question : JsValue) (st : St W) :
  falsy question = true \/ (exists q, question = JString q /\ blank q) ->
  POST env (Body question) st
  = (Ok {| status := 400; body := ErrorBody (js "Question is required") |},
     st).
Proof.
  intros [H | (q & -> & Hq)]; unfold POST.
  - rewrite H. reflexivity.
  - destruct (falsy (JString q)); [reflexivity|].
    unfold blank in Hq. rewrite Hq. reflexivity.
Qed.

Lemma POST_answers (q : jsstring) (st : St W) (w1 : W) :
  ~ blank q ->
  http_hop env (world st) = (Ok tt, w1) ->
  exists answer st',
    handleUserQuestion env q
      {| world := w1; trace := trace st ++ [EvFetch q true] |}
    = (Ok answer, st')
    /\ POST env (Body (JString q)) st
       = (Ok {| status := 200; body := ResponseOf answer |}, st').
Proof.
  intros Hq Hhop.
  destruct (api_ask_answers q
              {| world := w1; trace := trace st ++ [EvFetch q true] |}
              (not_blank_not_empty q Hq))
    as (answer & st' & E & Eapi).
  exists answer, st'. split; [exact E|].
  unfold POST, fetch_api_ask.
  rewrite (not_empty_truthy q (not_blank_not_empty q Hq)).
  rewrite (not_blank_trim q Hq).
  unfold try_catch, bind, call. rewrite Hhop. simpl.
  rewrite Eapi. reflexivity.
Qed.

Lemma POST_unreachable (q : jsstring) (st : St W) (e : JsError) (w1 : W) :
  ~ blank q ->
  http_hop env (world st) = (Throw e, w1) ->
  POST env (Body (JString q)) st
  = (Ok {| status := 500; body := ErrorBody (js "Internal server error") |},
     {| world := w1; trace := trace st ++ [EvFetch q false] |}).
Proof.
  intros Hq Hhop.
  unfold POST, fetch_api_ask.
  rewrite (not_empty_truthy q (not_blank_not_empty q Hq)).
  rewrite (not_blank_trim q Hq).
  unfold try_catch, bind, call. rewrite Hhop. reflexivity.
Qed.

End Routes.

(** C8, as the code has it.  The frontend route rejects with status 400 a
    question that is missing, empty or all white space, and leaves the
    state as it is: it makes no call to the backend, so nothing is
    searched or generated.  For any other string it calls the backend:
    when the call gets through, it answers 200 with the string
    [handleUserQuestion] returned; when the call fails, it answers 500.
    The backend route rejects with 400 a question that is missing, empty
    or not a string, and passes every non-empty string, white space
    included, to [handleUserQuestion], answering 200 with its result. *)
Theorem question_validation_at_both_routes :
  forall (W : Type) (env : Services W) (st : St W),
    (forall question,
        falsy question = true
        \/ (exists q, question = JString q /\ blank q) ->
        POST env (Body question) st
        = (Ok {| status := 400;
                 body := ErrorBody (js "Question is required") |}, st))
    /\ (forall q w1,
           ~ blank q ->
           http_hop env (world st) = (Ok tt, w1) ->
           exists answer st',
             handleUserQuestion env q
               {| world := w1; trace := trace st ++ [EvFetch q true] |}
             = (Ok answer, st')
             /\ POST env (Body (JString q)) st
                = (Ok {| status := 200; body := ResponseOf answer |}, st'))
    /\ (forall q e w1,
           ~ blank q ->
           http_hop env (world st) = (Throw e, w1) ->
           POST env (Body (JString q)) st
           = (Ok {| status := 500;
                    body := ErrorBody (js "Internal server error") |},
              {| world := w1; trace := trace st ++ [EvFetch q false] |}))
    /\ (forall question,
           falsy question = true \/ not_a_string question = true ->
           api_ask env (Body question) st
           = (Ok {| status := 400;
                    body := ErrorBody (js "Question is required.") |}, st))
    /\ (forall q,
           q <> [] ->
           exists answer st',
             handleUserQuestion env q st = (Ok answer, st')
             /\ api_ask env (Body (JString q)) st
                = (Ok {| status := 200; body := AnswerBody answer |}, st')).
Proof.
  intros W env st.
  split; [intros; apply POST_rejects; assumption|].
  split; [intros; apply POST_answers; assumption|].
  split; [intros; eapply POST_unreachable; eassumption|].
  split; [intros; apply api_ask_rejects; assumption|].
  intros; apply api_ask_answers; assumption.
Qed.

(** C8, as stated, fails: the backend route answers a question of three
    spaces with status 200, after a search and a generation; and the
    frontend route answers a proper question with status 500 when the
    backend cannot be reached. *)
Lemma whitespace_question_answered_by_backend :
  (blank (js "   ")
   /\ exists answer st',
        run (api_ask Sim.services (Body (JString (js "   "))))
            Scenario.two
        = (Ok {| status := 200; body := AnswerBody answer |}, st')
        /\ existsb isSearchOrGeneration (trace st') = true)
  /\ (~ blank (js "Where did Jay study?")
      /\ exists st',
           run (POST Sim.services
                     (Body (JString (js "Where did Jay study?"))))
               Scenario.backendDown
           = (Ok {| status := 500;
                    body := ErrorBody (js "Internal server error") |}, st')).
Proof.
  split; split.
  - reflexivity.
  - do 2 eexists. split; vm_compute; reflexivity.
  - vm_compute. discriminate.
  - eexists. vm_compute. reflexivity.
Qed.

(* ================================================================== *)
(** * Further properties of the code *)
(* ================================================================== *)

(** ** Splitting and joining *)

Lemma join_cons_cons (sep : jsstring) (x : N) (w : jsstring)
      (ws : list jsstring) :
  join sep ((x :: w) :: ws) = x :: join sep (w :: ws).
Proof. destruct ws; reflexivity. Qed.

Lemma join_split (c : N) (s : jsstring) : join [c] (split c s) = s.
Proof.
  induction s as [|x s IH]; simpl; [reflexivity|].
  destruct (N.eqb_spec x c) as [->|Hne].
  - pose proof (split_not_nil c s) as Hnil.
    destruct (split c s) as [|w ws] eqn:E; [congruence|].
    change (join [c] ([] :: w :: ws)) with (c :: join [c] (w :: ws)).
    rewrite IH. reflexivity.
  - destruct (split c s) as [|w ws] eqn:E;
      [exfalso; exact (split_not_nil c s E)|].
    rewrite join_cons_cons, IH. reflexivity.
Qed.

Lemma join_skipn_suffix (sep : jsstring) (n : nat) (ws : list jsstring) :
  exists a, join sep ws = a ++ join sep (skipn n ws).
Proof.
  revert ws. induction n as [|n IH]; intros ws.
  - exists []. reflexivity.
  - destruct ws as [|w ws]; [exists []; reflexivity|].
    destruct ws as [|w' ws].
    + exists w. simpl. rewrite skipn_nil. simpl. symmetry. apply app_nil_r.
    + destruct (IH (w' :: ws)) as [a Ha].
      exists (w ++ sep ++ a).
      change (join sep (w :: w' :: ws))
        with (w ++ sep ++ join sep (w' :: ws)).
      rewrite Ha. change (skipn (S n) (w :: w' :: ws))
                    with (skipn n (w' :: ws)).
      rewrite <- !app_assoc. reflexivity.
Qed.

Lemma join_firstn_prefix (sep : jsstring) (n : nat) (ws : list jsstring) :
  exists b, join sep ws = join sep (firstn n ws) ++ b.
Proof.
  revert ws. induction n as [|n IH]; intros ws.
  - exists (join sep ws). reflexivity.
  - destruct ws as [|w ws]; [exists []; reflexivity|].
    destruct (IH ws) as [b Hb].
    destruct ws as [|w' ws].
    + exists []. simpl. rewrite firstn_nil. simpl.
      symmetry. apply app_nil_r.
    + destruct n as [|n].
      * exists (sep ++ join sep (w' :: ws)). reflexivity.
      * exists b.
        change (join sep (w :: w' :: ws))
          with (w ++ sep ++ join sep (w' :: ws)).
        change (firstn (S (S n)) (w :: w' :: ws))
          with (w :: w' :: firstn n ws).
        change (join sep (w :: w' :: firstn n ws))
          with (w ++ sep ++ join sep (w' :: firstn n ws)).
        change (firstn (S n) (w' :: ws)) with (w' :: firstn n ws) in Hb.
        rewrite Hb, <- !app_assoc. reflexivity.
Qed.

(** X1.  Whatever the two texts, the overlap found is an end of the first
    and a start of the second, so it is no longer than either. *)
Theorem findTextOverlap_suffix_prefix :
  forall text1 text2 : jsstring,
    (exists a, text1 = a ++ findTextOverlap text1 text2)
    /\ (exists b, text2 = findTextOverlap text1 text2 ++ b)
    /\ length (findTextOverlap text1 text2)
       <= Nat.min (length text1) (length text2).
Proof.
  intros text1 text2.
  assert (H : (exists a, text1 = a ++ findTextOverlap text1 text2)
              /\ (exists b, text2 = findTextOverlap text1 text2 ++ b)).
  { destruct (findTextOverlap_scanned text1 text2)
      as [(k & Hk & Hm & _ & ->) | (_ & ->)].
    - split.
      + destruct (join_skipn_suffix [SPACE]
                    (length (wordsOf text1) - k) (wordsOf text1))
          as [a Ha].
        exists a. unfold lastWords. rewrite <- Ha.
        symmetry. apply join_split.
      + rewrite Hm.
        destruct (join_firstn_prefix [SPACE] k (wordsOf text2)) as [b Hb].
        exists b. unfold firstWords. rewrite <- Hb.
        symmetry. apply join_split.
    - split; [exists text1; symmetry; apply app_nil_r | exists text2;
                                                          reflexivity]. }
  destruct H as [[a Ha] [b Hb]]. split; [eauto|]. split; [eauto|].
  apply (f_equal (@length N)) in Ha, Hb. rewrite length_app in Ha, Hb.
  lia.
Qed.

(** X2.  A text overlaps itself entirely. *)
Theorem findTextOverlap_self :
  forall text : jsstring, findTextOverlap text text = text.
Proof.
  intros text.
  pose proof (split_not_nil SPACE text) as Hnil.
  assert (Hn : 1 <= length (wordsOf text)).
  { unfold wordsOf. destruct (split SPACE text); [congruence | simpl; lia]. }
  assert (Hlast : lastWords (length (wordsOf text)) text = text).
  { unfold lastWords. rewrite Nat.sub_diag. simpl. apply join_split. }
  assert (Hfirst : firstWords (length (wordsOf text)) text = text).
  { unfold firstWords. rewrite firstn_all. apply join_split. }
  destruct (findTextOverlap_scanned text text)
    as [(k & Hk & _ & Hmax & ->) | (Hnone & _)].
  - rewrite Nat.min_id in *.
    assert (length (wordsOf text) <= k)
      by (apply Hmax; [lia | congruence]).
    replace k with (length (wordsOf text)) by lia. exact Hlast.
  - exfalso. rewrite Nat.min_id in Hnone.
    apply (Hnone (length (wordsOf text))); [lia | congruence].
Qed.

(** ** White space *)

Lemma trim_start_all_ws (s : jsstring) :
  trim_start s = [] <-> forallb is_ws s = true.
Proof.
  induction s as [|c s IH]; simpl; [tauto|].
  destruct (is_ws c); simpl; [exact IH|].
  split; discriminate.
Qed.

Lemma trim_start_clean (s : jsstring) :
  starts_clean s = true -> trim_start s = s.
Proof.
  destruct s as [|c s]; simpl; [reflexivity|].
  destruct (is_ws c); [discriminate | reflexivity].
Qed.

Lemma trim_start_starts_clean (s : jsstring) :
  starts_clean (trim_start s) = true.
Proof.
  induction s as [|c s IH]; simpl; [reflexivity|].
  destruct (is_ws c) eqn:E; [exact IH|]. simpl. rewrite E. reflexivity.
Qed.

Lemma trim_start_suffix (s : jsstring) :
  exists a, s = a ++ trim_start s /\ forallb is_ws a = true.
Proof.
  induction s as [|c s (a & Ha & Hws)]; simpl.
  - exists []. split; reflexivity.
  - destruct (is_ws c) eqn:E.
    + exists (c :: a). simpl. rewrite E, Hws. split; [congruence | reflexivity].
    + exists []. split; reflexivity.
Qed.

Lemma trim_all_ws (s : jsstring) : trim s = [] <-> forallb is_ws s = true.
Proof.
  unfold trim. split.
  - intros H.
    assert (H1 : trim_start (rev (trim_start s)) = []).
    { destruct (trim_start (rev (trim_start s))) as [|x l] eqn:E;
        [reflexivity|].
      simpl in H. destruct (rev l); discriminate. }
    apply trim_start_all_ws in H1.
    apply trim_start_all_ws.
    pose proof (trim_start_starts_clean s) as Hc.
    destruct (trim_start s) as [|c r]; [reflexivity|].
    exfalso. simpl in Hc. rewrite forallb_forall in H1.
    rewrite (H1 c) in Hc; [discriminate|].
    apply in_rev. rewrite rev_involutive. left. reflexivity.
  - intros H. apply trim_start_all_ws in H. rewrite H. reflexivity.
Qed.

(** X3.  A chunk is skipped exactly when its text is missing, empty, or
    made of white space and line terminators only; it is kept exactly when
    its text has a character that is neither. *)
Theorem skipped_iff_blank :
  forall chunkText : option jsstring,
    (skipped chunkText = true <->
     match chunkText with
     | None => True
     | Some s => forallb is_ws s = true
     end)
    /\ (skipped chunkText = false <->
        exists s c, chunkText = Some s /\ In c s /\ is_ws c = false).
Proof.
  intros chunkText.
  assert (H : skipped chunkText = true <->
              match chunkText with
              | None => True
              | Some s => forallb is_ws s = true
              end).
  { destruct chunkText as [[|c r]|]; simpl; try tauto.
    rewrite Nat.eqb_eq, length_zero_iff_nil.
    apply (trim_all_ws (c :: r)). }
  split; [exact H|].
  split.
  - intros Hs. destruct chunkText as [s|].
    + assert (Hn : forallb is_ws s <> true).
      { intros Hall. apply H in Hall. congruence. }
      destruct (forallb is_ws s) eqn:E; [congruence|].
      assert (Hex : existsb (fun c => negb (is_ws c)) s = true).
      { clear -E. induction s as [|c s IH]; simpl in *; [discriminate|].
        destruct (is_ws c); simpl in *; auto. }
      apply existsb_exists in Hex. destruct Hex as (c & Hin & Hc).
      exists s, c. repeat split; auto.
      destruct (is_ws c); [discriminate | reflexivity].
    + simpl in Hs. discriminate.
  - intros (s & c & -> & Hin & Hc).
    apply not_true_is_false. intros E.
    apply H in E. rewrite forallb_forall in E.
    rewrite (E c Hin) in Hc. discriminate.
Qed.

(** ** Word count *)

Lemma split_length (c : N) (s : jsstring) :
  length (split c s) = S (length (filter (N.eqb c) s)).
Proof.
  induction s as [|x s IH]; simpl; [reflexivity|].
  rewrite (N.eqb_sym c x).
  destruct (N.eqb x c); simpl.
  - rewrite IH. reflexivity.
  - destruct (split c s) as [|w ws] eqn:E;
      [exfalso; exact (split_not_nil c s E)|].
    simpl in *. exact IH.
Qed.

(** X4.  The [wordCount] of a chunk's metadata is one more than the number
    of space characters of its text: never zero, one for a text without
    spaces, and counting an empty word between two adjacent spaces. *)
Theorem wordCount_counts_spaces :
  forall (file src : jsstring) (documents : list Document) (i : nat)
         (chunkText : jsstring),
    wordCount (chunkMetadata file src documents i chunkText)
    = S (length (filter (N.eqb SPACE) chunkText)).
Proof. intros. simpl. apply split_length. Qed.

(** ** File names *)

Lemma ext_scan_at_dot (ext r : jsstring) (seen : nat) :
  ~ In DOT ext -> ~ In SLASH ext ->
  ext_scan (ext ++ DOT :: r) seen
  = if Nat.eqb (seen + length ext) 0 then None else Some r.
Proof.
  revert seen. induction ext as [|c ext IH]; intros seen Hd Hs; simpl.
  - rewrite Nat.add_0_r. reflexivity.
  - destruct (N.eqb_spec c DOT) as [->|_];
      [exfalso; apply Hd; left; reflexivity|].
    destruct (N.eqb_spec c SLASH) as [->|_];
      [exfalso; apply Hs; left; reflexivity|].
    rewrite IH.
    + replace (S seen + length ext) with (seen + S (length ext)) by lia.
      reflexivity.
    + intros H; apply Hd; right; exact H.
    + intros H; apply Hs; right; exact H.
Qed.

Lemma ext_scan_no_dot (l : jsstring) (seen : nat) :
  ~ In DOT l -> ext_scan l seen = None.
Proof.
  revert seen. induction l as [|c l IH]; intros seen Hd; simpl;
    [reflexivity|].
  destruct (N.eqb_spec c DOT) as [->|_];
    [exfalso; apply Hd; left; reflexivity|].
  destruct (N.eqb c SLASH); [reflexivity|].
  apply IH. intros H; apply Hd; right; exact H.
Qed.

(** X5.  Removing the extension of a file name: a name [stem.ext] whose
    [ext] is not empty and has no dot or slash becomes [stem]; a name
    without a dot, and a name that ends with a dot, are left as they
    are. *)
Theorem strip_extension_last_dot :
  (forall stem ext : jsstring,
      ext <> [] -> ~ In DOT ext -> ~ In SLASH ext ->
      strip_extension (stem ++ DOT :: ext) = stem)
  /\ (forall fileName : jsstring,
         ~ In DOT fileName -> strip_extension fileName = fileName)
  /\ (forall stem : jsstring,
         strip_extension (stem ++ [DOT]) = stem ++ [DOT]).
Proof.
  split; [|split].
  - intros stem ext Hne Hd Hs. unfold strip_extension.
    rewrite rev_app_distr. simpl. rewrite <- app_assoc. simpl.
    rewrite ext_scan_at_dot.
    + rewrite length_rev. destruct ext; [congruence|]. simpl.
      apply rev_involutive.
    + intros H. apply Hd. apply in_rev. exact H.
    + intros H. apply Hs. apply in_rev. exact H.
  - intros fileName Hd. unfold strip_extension.
    rewrite ext_scan_no_dot; [reflexivity|].
    intros H. apply Hd. apply in_rev. exact H.
  - intros stem. unfold strip_extension.
    rewrite rev_app_distr. reflexivity.
Qed.

Lemma strip_extension_last_dot_witness :
  strip_extension (js "resume_jay.v2" ++ DOT :: js "pdf")
  = js "resume_jay.v2".
Proof.
  apply (proj1 strip_extension_last_dot (js "resume_jay.v2") (js "pdf")).
  - discriminate.
  - vm_compute. intuition discriminate.
  - vm_compute. intuition discriminate.
Defined.

(** X6.  The provenance label of a file name: for a name
    [label_rest], with no underscore in [label], it is [label] in lower
    case, whatever [rest] holds; for a name without underscore it is the
    whole name in lower case. *)
Theorem sourceLabel_before_underscore :
  forall (W : Type) (env : Services W),
    (forall label rest : jsstring,
        ~ In UNDERSCORE label ->
        sourceLabel env (label ++ UNDERSCORE :: rest)
        = toLowerCase env label)
    /\ (forall fileName : jsstring,
           ~ In UNDERSCORE fileName ->
           sourceLabel env fileName = toLowerCase env fileName).
Proof.
  intros W env. split.
  - intros label rest Hl. unfold sourceLabel.
    rewrite split_at_first by exact Hl.
    pose proof (split_not_nil UNDERSCORE rest) as Hnil.
    destruct (split UNDERSCORE rest); [congruence | reflexivity].
  - intros fileName Hf. unfold sourceLabel.
    rewrite split_no_separator by exact Hf. reflexivity.
Qed.

Lemma sourceLabel_before_underscore_witness :
  sourceLabel Sim.services (js "Resume" ++ UNDERSCORE :: js "Jay_2024.pdf")
  = toLowerCase Sim.services (js "Resume").
Proof.
  apply (proj1 (sourceLabel_before_underscore Sim.World Sim.services)).
  vm_compute. intuition discriminate.
Defined.

(** ** Reading the registry back *)

Lemma unlines_join (c : N) (bodies : list jsstring) :
  bodies <> [] ->
  concat (map (fun b => b ++ [c]) bodies) = join [c] bodies ++ [c].
Proof.
  induction bodies as [|b bodies IH]; [congruence|]. intros _.
  destruct bodies as [|b' bodies].
  - simpl. rewrite app_nil_r. reflexivity.
  - change (join [c] (b :: b' :: bodies))
      with (b ++ [c] ++ join [c] (b' :: bodies)).
    change (concat (map (fun b => b ++ [c]) (b :: b' :: bodies)))
      with ((b ++ [c])
            ++ concat (map (fun b => b ++ [c]) (b' :: bodies))).
    rewrite IH by discriminate. rewrite <- !app_assoc. reflexivity.
Qed.

Lemma split_join (c : N) (ws : list jsstring) :
  ws <> [] -> Forall (fun w => ~ In c w) ws ->
  split c (join [c] ws) = ws.
Proof.
  induction ws as [|w ws IH]; [congruence|]. intros _ Hall.
  inversion Hall as [|? ? Hw Hws]; subst.
  destruct ws as [|w' ws].
  - simpl. apply split_no_separator. exact Hw.
  - change (join [c] (w :: w' :: ws))
      with (w ++ c :: join [c] (w' :: ws)).
    rewrite split_at_first by exact Hw.
    rewrite IH; [reflexivity | discriminate | exact Hws].
Qed.

Lemma ends_clean_app (a t : jsstring) :
  t <> [] -> ends_clean (a ++ t) = ends_clean t.
Proof.
  intros Ht. unfold ends_clean. rewrite rev_app_distr.
  destruct (rev t) as [|x r] eqn:E; [|reflexivity].
  exfalso. apply Ht. rewrite <- (rev_involutive t), E. reflexivity.
Qed.

Lemma trim_line (s : jsstring) :
  starts_clean s = true -> ends_clean s = true ->
  trim (s ++ [NEWLINE]) = s.
Proof.
  intros Hs He. destruct s as [|x r]; [reflexivity|].
  unfold trim. rewrite (trim_start_clean ((x :: r) ++ [NEWLINE])) by exact Hs.
  rewrite rev_app_distr.
  change (rev [NEWLINE] ++ rev (x :: r)) with (NEWLINE :: rev (x :: r)).
  change (trim_start (NEWLINE :: rev (x :: r)))
    with (trim_start (rev (x :: r))).
  rewrite trim_start_clean by exact He. apply rev_involutive.
Qed.

Lemma join_lines_clean (bodies : list jsstring) :
  bodies <> [] ->
  Forall (fun b => b <> [] /\ starts_clean b = true
                   /\ ends_clean b = true) bodies ->
  join [NEWLINE] bodies <> []
  /\ starts_clean (join [NEWLINE] bodies) = true
  /\ ends_clean (join [NEWLINE] bodies) = true.
Proof.
  induction bodies as [|b bodies IH]; [congruence|]. intros _ Hall.
  inversion Hall as [|? ? (Hne & Hs & He) Hrest]; subst.
  destruct bodies as [|b' bodies]; [simpl; auto|].
  destruct (IH ltac:(discriminate) Hrest) as (Hne' & _ & He').
  change (join [NEWLINE] (b :: b' :: bodies))
    with (b ++ [NEWLINE] ++ join [NEWLINE] (b' :: bodies)).
  split; [|split].
  - destruct b; [congruence | discriminate].
  - destruct b; [congruence | exact Hs].
  - rewrite app_assoc, ends_clean_app by exact Hne'. exact He'.
Qed.

Lemma body_clean (id src : jsstring) :
  starts_clean id = true -> ends_clean src = true ->
  id ++ PIPE :: src <> []
  /\ starts_clean (id ++ PIPE :: src) = true
  /\ ends_clean (id ++ PIPE :: src) = true.
Proof.
  intros Hs He. split; [|split].
  - destruct id; discriminate.
  - destruct id; [reflexivity | exact Hs].
  - destruct src as [|c src].
    + unfold ends_clean. rewrite rev_app_distr. reflexivity.
    + change (id ++ PIPE :: c :: src) with (id ++ [PIPE] ++ (c :: src)).
      rewrite app_assoc, ends_clean_app by discriminate. exact He.
Qed.

Lemma parseLine_record (id src : jsstring) :
  pipeFree id -> pipeFree src ->
  parseLine (id ++ PIPE :: src)
  = {| name := id; info_source := Some src |}.
Proof.
  intros Hid Hsrc. unfold parseLine.
  rewrite split_at_first by exact Hid.
  rewrite split_no_separator by exact Hsrc. reflexivity.
Qed.

Lemma line_not_blank (id src : jsstring) :
  negb (jseqb (trim (id ++ PIPE :: src)) []) = true.
Proof.
  apply negb_true_iff. apply not_true_is_false. intros H.
  apply jseqb_eq in H. apply trim_all_ws in H.
  rewrite forallb_forall in H.
  assert (Hp : is_ws PIPE = true)
    by (apply H; apply in_or_app; right; left; reflexivity).
  discriminate.
Qed.

Lemma parse_bodies (records : list (jsstring * jsstring)) :
  Forall writable records ->
  map parseLine
      (filter (fun line => negb (jseqb (trim line) []))
              (map (fun r => fst r ++ PIPE :: snd r) records))
  = map infoOf records.
Proof.
  induction 1 as [|[id src] records (Hid & _ & Hsrc & _) _ IH];
    [reflexivity|].
  simpl in *. rewrite line_not_blank. simpl.
  rewrite parseLine_record by assumption. rewrite IH. reflexivity.
Qed.

Lemma registry_lines (records : list (jsstring * jsstring)) :
  Forall writable records ->
  map parseLine
      (filter (fun line => negb (jseqb (trim line) []))
              (split NEWLINE (trim (registryContent records))))
  = map infoOf records.
Proof.
  intros Hall. destruct records as [|r0 records0]; [reflexivity|].
  set (records := r0 :: records0) in *.
  set (bodies := map (fun r => fst r ++ PIPE :: snd r) records).
  assert (Hcontent : registryContent records
                     = join [NEWLINE] bodies ++ [NEWLINE]).
  { unfold registryContent, bodies.
    rewrite <- unlines_join by discriminate.
    rewrite map_map. f_equal. apply map_ext. intros [id src].
    unfold registryLine. simpl. rewrite <- app_assoc. reflexivity. }
  assert (Hclean : Forall (fun b => b <> [] /\ starts_clean b = true
                                    /\ ends_clean b = true) bodies).
  { unfold bodies. apply Forall_map.
    eapply Forall_impl; [|exact Hall].
    intros [id src] (_ & _ & _ & _ & Hs & He). apply body_clean; assumption. }
  destruct (join_lines_clean bodies ltac:(discriminate) Hclean)
    as (_ & Hs & He).
  rewrite Hcontent, trim_line by assumption.
  rewrite split_join.
  - apply parse_bodies. exact Hall.
  - discriminate.
  - unfold bodies. apply Forall_map.
    eapply Forall_impl; [|exact Hall].
    intros [id src] (_ & Hid & _ & Hsrc & _) Hin. simpl in *.
    apply in_app_or in Hin. destruct Hin as [Hin|[Hin|Hin]];
      [exact (Hid Hin) | discriminate | exact (Hsrc Hin)].
Qed.

(** X7.  What was appended to the registry is read back: when the
    registry file holds the lines of the given records, each with fields
    free of [|] and of line feeds, an id that does not start with white
    space and a source that does not end with it, [loadCollectionNames]
    returns exactly these records, in the order they were appended, after
    one read of the file. *)
Theorem loadCollectionNames_reads_back :
  forall (W : Type) (env : Services W)
         (records : list (jsstring * jsstring)) (st : St W) (w1 w2 : W),
    Forall writable records ->
    existsSync env (collectionsFile env) (world st) = (true, w1) ->
    readFileSync env (collectionsFile env) w1
    = (Ok (registryContent records), w2) ->
    loadCollectionNames env st
    = (Ok (map infoOf records),
       {| world := w2;
          trace := trace st ++ [EvRead (collectionsFile env) true] |}).
Proof.
  intros W env records st w1 w2 Hall Hex Hread.
  unfold loadCollectionNames. unfold_monad.
  rewrite Hex. simpl. rewrite Hread. simpl.
  rewrite registry_lines by exact Hall. reflexivity.
Qed.

Lemma loadCollectionNames_reads_back_witness :
  loadCollectionNames Sim.services
    {| world := Scenario.two; trace := [] |}
  = (Ok (map infoOf
            [(js "doc_cv_1_aaaaaa", js "document:cv_jay.pdf");
             (js "doc_projects_2_bbbbbb", js "document:projects.pdf")]),
     {| world := Scenario.two;
        trace := [] ++ [EvRead (collectionsFile Sim.services) true] |}).
Proof.
  apply (loadCollectionNames_reads_back Sim.World Sim.services
           [(js "doc_cv_1_aaaaaa", js "document:cv_jay.pdf");
            (js "doc_projects_2_bbbbbb", js "document:projects.pdf")]
           {| world := Scenario.two; trace := [] |}
           Scenario.two Scenario.two).
  - repeat constructor; vm_compute; intuition discriminate.
  - reflexivity.
  - reflexivity.
Defined.

(** X8.  A registry line is cut at its pipes: the name is the text before
    the first [|] and the source the text between the first and the second
    [|], anything after a second [|] being dropped; a line without [|] has
    the whole line as name and no source. *)
Theorem parseLine_cuts_at_pipes :
  (forall id src rest : jsstring,
      pipeFree id -> pipeFree src ->
      parseLine (id ++ PIPE :: src ++ PIPE :: rest)
      = {| name := id; info_source := Some src |})
  /\ (forall line : jsstring,
         pipeFree line ->
         parseLine line = {| name := line; info_source := None |}).
Proof.
  split.
  - intros id src rest Hid Hsrc. unfold parseLine.
    rewrite split_at_first by exact Hid.
    rewrite split_at_first by exact Hsrc.
    pose proof (split_not_nil PIPE rest) as Hnil.
    destruct (split PIPE rest); [congruence | reflexivity].
  - intros line Hline. unfold parseLine.
    rewrite split_no_separator by exact Hline. reflexivity.
Qed.

Lemma parseLine_cuts_at_pipes_witness :
  parseLine (js "doc_a_1_x" ++ PIPE :: js "document:a" ++ PIPE :: js "b.pdf")
  = {| name := js "doc_a_1_x"; info_source := Some (js "document:a") |}.
Proof.
  apply (proj1 parseLine_cuts_at_pipes);
    vm_compute; intuition discriminate.
Defined.

(** ** Words separated by white space *)

(** On texts in which single spaces are the only white space, the words
    that white space separates are those that [text.split(" ")] gives. *)
Lemma whitespaceWords_word (w t : jsstring) :
  plainWord w ->
  whitespaceWords w = [w]
  /\ whitespaceWords (w ++ SPACE :: t) = w :: whitespaceWords t.
Proof.
  intros [Hne Hall]. induction w as [|c w IH]; [congruence|].
  inversion Hall as [|? ? Hc Hw]; subst.
  destruct w as [|d w].
  - simpl. rewrite Hc. split; reflexivity.
  - inversion Hw as [|? ? Hd _]; subst.
    destruct IH as [IH1 IH2]; [discriminate | assumption |].
    split.
    + change (whitespaceWords (c :: d :: w))
        with (if is_ws c then whitespaceWords (d :: w)
              else if is_ws d then [c] :: whitespaceWords (d :: w)
                   else match whitespaceWords (d :: w) with
                        | [] => [[c]]
                        | w' :: ws => (c :: w') :: ws
                        end).
      rewrite Hc, Hd, IH1. reflexivity.
    + change (whitespaceWords ((c :: d :: w) ++ SPACE :: t))
        with (if is_ws c then whitespaceWords ((d :: w) ++ SPACE :: t)
              else if is_ws d
                   then [c] :: whitespaceWords ((d :: w) ++ SPACE :: t)
                   else match whitespaceWords ((d :: w) ++ SPACE :: t) with
                        | [] => [[c]]
                        | w' :: ws => (c :: w') :: ws
                        end).
      rewrite Hc, Hd, IH2. reflexivity.
Qed.

Lemma tokenizations_agree_on_single_spaced (ws : list jsstring) :
  ws <> [] -> Forall plainWord ws ->
  wordsOf (join [SPACE] ws) = ws
  /\ whitespaceWords (join [SPACE] ws) = ws.
Proof.
  intros Hne Hall. split.
  - apply split_join; [assumption|].
    apply Forall_impl with (2 := Hall). intros w [_ Hw] Hin.
    rewrite Forall_forall in Hw. specialize (Hw _ Hin). discriminate.
  - clear Hne. induction Hall as [|w ws Hw Hws IH]; [reflexivity|].
    destruct ws as [|w' ws].
    + simpl. apply (whitespaceWords_word w []). assumption.
    + change (join [SPACE] (w :: w' :: ws))
        with (w ++ SPACE :: join [SPACE] (w' :: ws)).
      rewrite (proj2 (whitespaceWords_word w _ Hw)), IH. reflexivity.
Qed.

(** There the overlap of the specification is what [findTextOverlap]
    returns. *)
Lemma findTextOverlap_on_single_spaced (prevWords nextWords : list jsstring)
      (k : nat) :
  prevWords <> [] -> Forall plainWord prevWords ->
  nextWords <> [] -> Forall plainWord nextWords ->
  LongestWhitespaceWindow (join [SPACE] prevWords) (join [SPACE] nextWords)
                          k ->
  findTextOverlap (join [SPACE] prevWords) (join [SPACE] nextWords)
  = lastWhitespaceWords k (join [SPACE] prevWords).
Proof.
  intros Hp Hpw Hn Hnw.
  destruct (tokenizations_agree_on_single_spaced prevWords Hp Hpw)
    as [Ep Ep'].
  destruct (tokenizations_agree_on_single_spaced nextWords Hn Hnw)
    as [En En'].
  set (prev := join [SPACE] prevWords) in *.
  set (next := join [SPACE] nextWords) in *.
  assert (El : forall i, lastWhitespaceWords i prev = lastWords i prev)
    by (intros i; unfold lastWhitespaceWords, lastWords;
        rewrite Ep, Ep'; reflexivity).
  assert (Ef : forall i, firstWhitespaceWords i next = firstWords i next)
    by (intros i; unfold firstWhitespaceWords, firstWords;
        rewrite En, En'; reflexivity).
  unfold LongestWhitespaceWindow, WhitespaceWindowMatch.
  rewrite Ep', En'. intros [[Hk Hm] Hmax]. rewrite El.
  destruct (findTextOverlap_scanned prev next)
    as [(k0 & Hk0 & Hm0 & Hmax0 & ->) | (Hnone & _)].
  - rewrite Ep, En in Hk0, Hmax0.
    assert (k0 <= k)
      by (apply Hmax; split; [assumption | rewrite El, Ef; assumption]).
    assert (k <= k0)
      by (apply Hmax0; [assumption | rewrite <- El, <- Ef; assumption]).
    replace k0 with k by lia. reflexivity.
  - exfalso. apply (Hnone k); [rewrite Ep, En; assumption|].
    rewrite <- El, <- Ef. assumption.
Qed.

(** ** The loop over the chunks, call by call *)

Section ChunkLoop.

Context {W : Type} (env : Services W).

Variables file src : jsstring.
Variable documents : list Document.

Lemma chunkStep_skips (acc : Arrays) (i : nat) (st : St W) :
  i < length documents ->
  storedAt documents i = false ->
  chunkStep env file src documents acc i st = (Ok acc, st).
Proof.
  intros Hi Hs. unfold chunkStep, storedAt in *.
  destruct (nth_error documents i) as [doc|] eqn:Hdoc;
    [|apply nth_error_None in Hdoc; lia].
  apply negb_false_iff in Hs.
  destruct (chunkTextOf doc) as [chunkText|]; [|reflexivity].
  rewrite Hs. reflexivity.
Qed.

Lemma chunkStep_embeds (acc : Arrays) (i : nat) (st : St W) :
  storedAt documents i = true ->
  chunkStep env file src documents acc i st
  = match embeddings_create env (textAt documents i) (world st) with
    | (Ok embedding, w) =>
        (Ok {| ids := ids acc ++ [chunkId i];
               metadatas :=
                 metadatas acc
                 ++ [chunkMetadata file src documents i
                                   (textAt documents i)];
               docTexts := docTexts acc ++ [textAt documents i];
               embeddings := embeddings acc ++ [embedding] |},
         {| world := w;
            trace := trace st
                     ++ [EvEmbed (textAt documents i) (Some embedding)] |})
    | (Throw e, w) =>
        (Throw e,
         {| world := w;
            trace := trace st ++ [EvEmbed (textAt documents i) None] |})
    end.
Proof.
  intros Hs. unfold chunkStep, storedAt, textAt in *.
  destruct (nth_error documents i) as [doc|]; [|discriminate].
  apply negb_true_iff in Hs.
  destruct (chunkTextOf doc) as [chunkText|]; [|discriminate].
  rewrite Hs. unfold createEmbedding. unfold_monad.
  destruct (embeddings_create env chunkText (world st)) as [[e|err] w];
    reflexivity.
Qed.

Lemma chunkLoop_course (indices : list nat) :
  (forall i, In i indices -> i < length documents) ->
  forall acc st,
  exists r evs st',
    runs (foldM (chunkStep env file src documents) indices acc) st r evs st'
    /\ match r with
       | Ok acc' =>
           exists vectors,
             length vectors = length (filter (storedAt documents) indices)
             /\ ids acc'
                = ids acc
                  ++ map chunkId (filter (storedAt documents) indices)
             /\ metadatas acc'
                = metadatas acc
                  ++ map (fun i => chunkMetadata file src documents i
                                                 (textAt documents i))
                         (filter (storedAt documents) indices)
             /\ docTexts acc'
                = docTexts acc
                  ++ map (textAt documents)
                         (filter (storedAt documents) indices)
             /\ embeddings acc' = embeddings acc ++ vectors
             /\ evs = embedCalls documents
                                 (filter (storedAt documents) indices)
                                 vectors
       | Throw _ =>
           exists done failed rest vectors,
             filter (storedAt documents) indices = done ++ failed :: rest
             /\ length vectors = length done
             /\ evs = embedCalls documents done vectors
                      ++ [EvEmbed (textAt documents failed) None]
       end.
Proof.
  induction indices as [|i indices IH]; intros Hin acc st.
  - exists (Ok acc), [], st. split; [apply runs_ret|].
    exists []. simpl. rewrite !app_nil_r. repeat split.
  - assert (Hi : i < length documents) by (apply Hin; left; reflexivity).
    assert (Hrest : forall j, In j indices -> j < length documents)
      by (intros j Hj; apply Hin; right; exact Hj).
    simpl. destruct (storedAt documents i) eqn:Hs.
    + pose proof (chunkStep_embeds acc i st Hs) as Hstep.
      destruct (embeddings_create env (textAt documents i) (world st))
        as [[embedding|e] w].
      * match type of Hstep with _ = (Ok ?a, ?s) =>
          destruct (IH Hrest a s) as (r & evs & st' & R & H)
        end.
        exists r, ([EvEmbed (textAt documents i) (Some embedding)] ++ evs),
          st'.
        split.
        { eapply runs_bind; [|exact R]. split; [exact Hstep | reflexivity]. }
        destruct r as [acc'|err].
        -- destruct H as (vectors & Hlen & Hids & Hmeta & Htexts & Hemb
                          & Hevs).
           exists (embedding :: vectors). simpl in *.
           rewrite Hids, Hmeta, Htexts, Hemb, Hevs, <- !app_assoc.
           repeat split; auto.
        -- destruct H as (done & failed & rest & vectors & Hf & Hlen
                          & Hevs).
           exists (i :: done), failed, rest, (embedding :: vectors).
           simpl. rewrite Hf, Hlen, Hevs. repeat split.
      * exists (Throw e), [EvEmbed (textAt documents i) None],
          {| world := w;
             trace := trace st ++ [EvEmbed (textAt documents i) None] |}.
        split.
        { apply runs_bind_throw. split; [exact Hstep | reflexivity]. }
        exists [], i, (filter (storedAt documents) indices), [].
        repeat split.
    + destruct (IH Hrest acc st) as (r & evs & st' & R & H).
      exists r, evs, st'. split; [|exact H].
      change evs with ([] ++ evs).
      eapply runs_bind; [|exact R].
      split; [apply chunkStep_skips; assumption|].
      symmetry; apply app_nil_r.
Qed.

Lemma processChunks_course :
  satisfies (processChunks env file src documents)
    (fun r evs =>
       match r with
       | Ok acc =>
           length (embeddings acc) = length (storedIndices documents)
           /\ ids acc = map chunkId (storedIndices documents)
           /\ metadatas acc
              = map (fun i => chunkMetadata file src documents i
                                            (textAt documents i))
                    (storedIndices documents)
           /\ docTexts acc = map (textAt documents) (storedIndices documents)
           /\ evs = embedCalls documents (storedIndices documents)
                               (embeddings acc)
       | Throw _ =>
           exists done failed rest vectors,
             storedIndices documents = done ++ failed :: rest
             /\ length vectors = length done
             /\ evs = embedCalls documents done vectors
                      ++ [EvEmbed (textAt documents failed) None]
       end).
Proof.
  intros st.
  destruct (chunkLoop_course (seq 0 (length documents))
              (fun i Hi => proj2 (proj1 (in_seq _ _ _) Hi)) noArrays st)
    as (r & evs & st' & R & H).
  exists r, evs, st'. split; [exact R|].
  destruct r as [acc|e]; [|exact H].
  destruct H as (vectors & Hlen & Hids & Hmeta & Htexts & Hemb & Hevs).
  simpl in *. subst. unfold storedIndices. repeat split; auto.
Qed.

End ChunkLoop.

(** X9.  When the loop over the chunks of a document completes, the four
    arrays it has filled are parallel: they hold one entry for each chunk
    that is not skipped, in extraction order: the id [chunk_i] with the
    original index [i], the metadata built for chunk [i], its text, and
    the vector the embedding service returned for that text; and the
    embedding service was called exactly once for each of these chunks, in
    that order, and for no other text. *)
Theorem processChunks_parallel_arrays :
  forall (W : Type) (env : Services W) (file src : jsstring)
         (documents : list Document) (st : St W) (acc : Arrays)
         (st' : St W),
    processChunks env file src documents st = (Ok acc, st') ->
    ids acc = map chunkId (storedIndices documents)
    /\ metadatas acc
       = map (fun i => chunkMetadata file src documents i
                                     (textAt documents i))
             (storedIndices documents)
    /\ map chunkIndex (metadatas acc) = storedIndices documents
    /\ docTexts acc = map (textAt documents) (storedIndices documents)
    /\ length (embeddings acc) = length (storedIndices documents)
    /\ trace st'
       = trace st
         ++ embedCalls documents (storedIndices documents) (embeddings acc).
Proof.
  intros W env file src documents st acc st' E.
  destruct (processChunks_course env file src documents st)
    as (r & evs & st1 & [E1 T1] & H).
  rewrite E in E1. injection E1 as <- <-.
  destruct H as (Hlen & Hids & Hmeta & Htexts & Hevs).
  split; [exact Hids|]. split; [exact Hmeta|]. split.
  - rewrite Hmeta, map_map. simpl. apply map_id.
  - split; [exact Htexts|]. split; [exact Hlen|].
    rewrite T1, Hevs. reflexivity.
Qed.

Lemma processChunks_parallel_arrays_witness :
  exists acc st',
    Scenario.chunksOf Scenario.gapped = (Ok acc, st')
    /\ ids acc = map chunkId (storedIndices Scenario.gapped)
    /\ metadatas acc
       = map (fun i => chunkMetadata (js "cv_jay.pdf") (js "cv")
                                     Scenario.gapped i
                                     (textAt Scenario.gapped i))
             (storedIndices Scenario.gapped)
    /\ map chunkIndex (metadatas acc) = storedIndices Scenario.gapped
    /\ docTexts acc
       = map (textAt Scenario.gapped) (storedIndices Scenario.gapped)
    /\ length (embeddings acc) = length (storedIndices Scenario.gapped)
    /\ trace st'
       = [] ++ embedCalls Scenario.gapped (storedIndices Scenario.gapped)
                          (embeddings acc).
Proof.
  exists (match fst (Scenario.chunksOf Scenario.gapped) with
          | Ok acc => acc
          | Throw _ => noArrays
          end), (snd (Scenario.chunksOf Scenario.gapped)).
  split; [vm_compute; reflexivity|].
  apply (processChunks_parallel_arrays Sim.World Sim.services
           (js "cv_jay.pdf") (js "cv") Scenario.gapped
           {| world := Scenario.withChunks Scenario.gapped; trace := [] |}).
  vm_compute. reflexivity.
Defined.

(** X10.  When an embedding call throws, the loop over the chunks stops
    there and throws: the calls it has made are one successful call for
    each stored chunk before the failing one, in order, then the failing
    call, and none for the chunks after it. *)
Theorem processChunks_stops_at_failure :
  forall (W : Type) (env : Services W) (file src : jsstring)
         (documents : list Document) (st : St W) (e : JsError)
         (st' : St W),
    processChunks env file src documents st = (Throw e, st') ->
    exists done failed rest vectors,
      storedIndices documents = done ++ failed :: rest
      /\ length vectors = length done
      /\ trace st'
         = trace st
           ++ embedCalls documents done vectors
           ++ [EvEmbed (textAt documents failed) None].
Proof.
  intros W env file src documents st e st' E.
  destruct (processChunks_course env file src documents st)
    as (r & evs & st1 & [E1 T1] & H).
  rewrite E in E1. injection E1 as <- <-.
  destruct H as (done & failed & rest & vectors & Hf & Hlen & Hevs).
  exists done, failed, rest, vectors. rewrite T1, Hevs. repeat split; auto.
Qed.

Lemma processChunks_stops_at_failure_witness :
  exists done failed rest vectors,
    storedIndices Scenario.adjacent = done ++ failed :: rest
    /\ length vectors = length done
    /\ trace (snd (run (processChunks Sim.services (js "cv_jay.pdf")
                                      (js "cv") Scenario.adjacent)
                       Scenario.noEmbedding))
       = [] ++ embedCalls Scenario.adjacent done vectors
            ++ [EvEmbed (textAt Scenario.adjacent failed) None].
Proof.
  apply (processChunks_stops_at_failure Sim.World Sim.services
           (js "cv_jay.pdf") (js "cv") Scenario.adjacent
           {| world := Scenario.noEmbedding; trace := [] |}
           Sim.RateLimit).
  vm_compute. reflexivity.
Defined.

(** X11.  A document all of whose chunks are skipped is ingested without
    any call: the loop makes no embedding call, leaves the world and the
    trace as they are, and returns four empty arrays. *)
Theorem processChunks_blank_document :
  forall (W : Type) (env : Services W) (file src : jsstring)
         (documents : list Document) (st : St W),
    Forall (fun doc => skipped (chunkTextOf doc) = true) documents ->
    processChunks env file src documents st = (Ok noArrays, st).
Proof.
  intros W env file src documents st Hall. unfold processChunks.
  assert (G : forall indices acc,
             (forall i, In i indices -> i < length documents) ->
             foldM (chunkStep env file src documents) indices acc st
             = (Ok acc, st)).
  { induction indices as [|i indices IH]; intros acc Hin; [reflexivity|].
    simpl. unfold bind. rewrite chunkStep_skips.
    - apply IH. intros j Hj. apply Hin. right. exact Hj.
    - apply Hin. left. reflexivity.
    - unfold storedAt.
      destruct (nth_error documents i) as [doc|] eqn:Hdoc; [|reflexivity].
      rewrite Forall_forall in Hall.
      rewrite (Hall doc (nth_error_In _ _ Hdoc)). reflexivity. }
  apply G. intros i Hi. apply in_seq in Hi. lia.
Qed.

Lemma processChunks_blank_document_witness :
  processChunks Sim.services (js "scan.pdf") (js "scan.pdf")
    [Sim.chunk "   "; Sim.chunk ""]
    {| world := Scenario.blankDocument; trace := [] |}
  = (Ok noArrays, {| world := Scenario.blankDocument; trace := [] |}).
Proof.
  apply (processChunks_blank_document Sim.World Sim.services).
  repeat constructor.
Defined.

(** ** The ingestion of one file, call by call *)

Section IngestCourses.

Context {W : Type} (env : Services W).

Lemma saveCollectionName_course (collectionName src : jsstring) :
  satisfies (saveCollectionName env collectionName src)
    (fun r evs =>
       r = Ok tt
       /\ Registration (collectionsFile env)
                       (registryLine collectionName src) evs).
Proof.
  intros st. unfold saveCollectionName.
  fold (registryLine collectionName src). unfold_monad.
  destruct (existsSync env (js "app") (world st)) as [found w1].
  destruct found; simpl.
  - destruct (appendFileSync env _ _ w1) as [[[]|e] w2]; simpl;
      (do 3 eexists; split; [done_runs|]; split;
       [reflexivity | constructor]).
  - destruct (mkdirSync env _ w1) as [[[]|e] w2]; simpl.
    + destruct (appendFileSync env _ _ w2) as [[[]|e] w3]; simpl;
        (do 3 eexists; split; [done_runs|]; split;
         [reflexivity | constructor]).
    + do 3 eexists; split; [done_runs|]; split;
        [reflexivity | constructor].
Qed.

Lemma processSinglePDF_course (filePath : jsstring) :
  satisfies (processSinglePDF env filePath)
    (fun r evs =>
       exists res timestamp random,
         r = Ok res
         /\ IngestCourse (collectionsFile env) filePath
              (path_basename env filePath)
              (collectionIdOf (path_basename env filePath) timestamp
                              random)
              res evs).
Proof.
  intros st. unfold processSinglePDF, generateCollectionName.
  set (file := path_basename env filePath).
  unfold_monad.
  destruct (date_now env (world st)) as [timestamp w1]. cbv beta iota.
  change (world {| world := w1; trace := trace st |}) with w1.
  destruct (random_suffix env w1) as [random w2]. cbv beta iota.
  fold (collectionIdOf file timestamp random).
  set (id := collectionIdOf file timestamp random).
  change (world {| world := w2; trace := _ |}) with w2.
  destruct (createCollection env id w2) as [[coll|e] w3]; simpl.
  2:{ do 3 eexists. split; [done_runs|]. exists None, timestamp, random.
      split; [reflexivity | constructor]. }
  destruct (loadData env filePath w3) as [[documents|e] w4]; simpl.
  2:{ do 3 eexists. split; [done_runs|]. exists None, timestamp, random.
      split; [reflexivity | constructor]. }
  match goal with
  | |- context [processChunks env ?f ?s ?d ?st1] =>
      destruct (processChunks_course env f s d st1)
        as (r & evs & st2 & [E T] & H)
  end.
  rewrite E. simpl in T. destruct r as [acc|e].
  2:{ destruct H as (done & failed & rest & vectors & Hf & Hlen & ->).
      do 3 eexists. split; [done_runs|]. exists None, timestamp, random.
      split; [reflexivity|].
      apply (course_no_embedding _ _ _ _ documents done failed rest
                                 vectors); assumption. }
  destruct H as (Hlen & Hids & Hmeta & Htexts & ->).
  destruct (Nat.ltb_spec 0 (length (ids acc))) as [Hpos|Hzero]; simpl.
  2:{ assert (Hnone : storedIndices documents = []).
      { rewrite Hids, length_map in Hzero.
        destruct (storedIndices documents); [reflexivity | simpl in *; lia]. }
      rewrite Hnone in T. simpl in T. rewrite app_nil_r in T.
      do 3 eexists. split; [done_runs|].
      exists (Some id), timestamp, random.
      split; [reflexivity|].
      apply (course_nothing_stored _ _ _ _ documents). exact Hnone. }
  assert (Hsome : storedIndices documents <> []).
  { intros Hnone. rewrite Hids, Hnone in Hpos. simpl in Hpos. lia. }
  set (req := {| add_ids := ids acc; add_metadatas := metadatas acc;
                 add_documents := docTexts acc;
                 add_embeddings := embeddings acc |}).
  destruct (collection_add env coll req (world st2)) as [[[]|e] w5]; simpl.
  2:{ do 3 eexists. split; [done_runs|]. exists None, timestamp, random.
      split; [reflexivity|].
      apply (course_no_write _ _ _ _ documents coll req); assumption. }
  match goal with
  | |- context [saveCollectionName env ?n ?s ?st3] =>
      destruct (saveCollectionName_course n s st3)
        as (r3 & evs3 & st4 & [E3 T3] & -> & H3)
  end.
  rewrite E3. simpl in T3. simpl.
  do 3 eexists. split; [done_runs|].
  exists (Some id), timestamp, random.
  split; [reflexivity|].
  apply course_stored with (documents := documents) (req := req);
    assumption.
Qed.

End IngestCourses.

Lemma embedCalls_in (documents : list Document) (indices : list nat)
      (vectors : list Embedding) (ev : Event) :
  In ev (embedCalls documents indices vectors) ->
  exists input e, ev = EvEmbed input (Some e).
Proof.
  unfold embedCalls. intros Hin. apply in_map_iff in Hin.
  destruct Hin as ([i e] & <- & _). eexists; eexists; reflexivity.
Qed.

Lemma embedCalls_filter (f : Event -> bool) documents indices vectors :
  (forall input e, f (EvEmbed input (Some e)) = false) ->
  filter f (embedCalls documents indices vectors) = [].
Proof.
  intros Hf. unfold embedCalls.
  induction (combine indices vectors) as [|[i e] l IH]; [reflexivity|].
  simpl. rewrite Hf. exact IH.
Qed.

Lemma Registration_in (registry line : jsstring) (saves : list Event)
      (ev : Event) :
  Registration registry line saves -> In ev saves ->
  (exists ok, ev = EvMkdir (js "app") ok)
  \/ (exists ok, ev = EvAppend registry line ok).
Proof.
  intros [ok|ok|] Hin; simpl in Hin;
    repeat (destruct Hin as [<-|Hin]; [eauto|]); contradiction.
Qed.


(** X13.  In the ingestion of one file, the registry is appended to at
    most once and the collection is written at most once; an append is
    only made after a batch write that succeeded and held at least one
    chunk. *)
Theorem registration_follows_write :
  forall (W : Type) (env : Services W) (filePath : jsstring) (st : St W),
    length (filter isAdd (events (processSinglePDF env filePath) st)) <= 1
    /\ length (filter isAppend (events (processSinglePDF env filePath) st))
       <= 1
    /\ (forall p entry ok,
           In (EvAppend p entry ok)
              (events (processSinglePDF env filePath) st) ->
           exists before coll req after,
             events (processSinglePDF env filePath) st
             = before ++ EvAdd coll req true :: after
             /\ add_ids req <> []
             /\ In (EvAppend p entry ok) after).
Proof.
  intros W env filePath st.
  destruct (processSinglePDF_course env filePath st)
    as (r & evs & st' & R & res & timestamp & random & -> & H).
  rewrite (runs_events _ _ _ _ _ R).
  assert (Hadd : forall d i v, filter isAdd (embedCalls d i v) = [])
    by (intros; apply embedCalls_filter; reflexivity).
  assert (Happ : forall d i v, filter isAppend (embedCalls d i v) = [])
    by (intros; apply embedCalls_filter; reflexivity).
  destruct H as [ | | documents done failed rest vectors Hf Hlen
                  | documents Hnone
                  | documents coll req Hsome Hids Htexts Hlen
                  | documents coll req saves Hsome Hids Htexts Hlen Hreg ].
  - split; [simpl; lia|]. split; [simpl; lia|].
    intros p entry ok [Hin|[]]; discriminate.
  - split; [simpl; lia|]. split; [simpl; lia|].
    intros p entry ok [Hin|[Hin|[]]]; discriminate.
  - simpl. rewrite !filter_app, Hadd, Happ. simpl.
    split; [lia|]. split; [lia|].
    intros p entry ok [Hin|[Hin|Hin]]; try discriminate.
    apply in_app_or in Hin. destruct Hin as [Hin|[Hin|[]]];
      [|discriminate].
    apply embedCalls_in in Hin. destruct Hin as (? & ? & ?). discriminate.
  - split; [simpl; lia|]. split; [simpl; lia|].
    intros p entry ok [Hin|[Hin|[]]]; discriminate.
  - simpl. rewrite !filter_app, Hadd, Happ. simpl.
    split; [lia|]. split; [lia|].
    intros p entry ok [Hin|[Hin|Hin]]; try discriminate.
    apply in_app_or in Hin. destruct Hin as [Hin|[Hin|[]]];
      [|discriminate].
    apply embedCalls_in in Hin. destruct Hin as (? & ? & ?). discriminate.
  - simpl. rewrite !filter_app, Hadd, Happ. simpl.
    assert (Hsaves : filter isAdd saves = []
                     /\ length (filter isAppend saves) <= 1)
      by (destruct Hreg; simpl; split; auto).
    destruct Hsaves as [-> Hle].
    split; [simpl; lia|]. split; [exact Hle|].
    intros p entry ok [Hin|[Hin|Hin]]; try discriminate.
    apply in_app_or in Hin. destruct Hin as [Hin|[Hin|Hin]].
    + apply embedCalls_in in Hin. destruct Hin as (? & ? & ?).
      discriminate.
    + discriminate.
    + eexists (_ :: _ :: embedCalls _ _ _), coll, req, saves.
      split; [reflexivity|].
      split; [|exact Hin].
      rewrite Hids. destruct (storedIndices documents);
        [congruence | discriminate].
Qed.

(** X14.  When an embedding call throws during the ingestion of a file,
    the result is [null], no batch is written to the collection and
    nothing is appended to the registry, and the failed call is the last
    call made for that file. *)
Theorem embedding_failure_aborts_file :
  forall (W : Type) (env : Services W) (filePath : jsstring) (st : St W)
         (input : jsstring),
    In (EvEmbed input None) (events (processSinglePDF env filePath) st) ->
    fst (processSinglePDF env filePath st) = Ok None
    /\ filter isAdd (events (processSinglePDF env filePath) st) = []
    /\ filter isAppend (events (processSinglePDF env filePath) st) = []
    /\ exists before,
        events (processSinglePDF env filePath) st
        = before ++ [EvEmbed input None].
Proof.
  intros W env filePath st input.
  destruct (processSinglePDF_course env filePath st)
    as (r & evs & st' & R & res & timestamp & random & -> & H).
  rewrite (runs_events _ _ _ _ _ R). destruct R as [-> _]. simpl.
  assert (Hno : forall d i v, ~ In (EvEmbed input None) (embedCalls d i v)).
  { intros d i v Hin. apply embedCalls_in in Hin.
    destruct Hin as (? & ? & ?). discriminate. }
  destruct H as [ | | documents done failed rest vectors Hf Hlen
                  | documents Hnone
                  | documents coll req Hsome Hids Htexts Hlen
                  | documents coll req saves Hsome Hids Htexts Hlen Hreg ];
    intros Hin; simpl in Hin.
  - destruct Hin as [Hin|[]]; discriminate.
  - destruct Hin as [Hin|[Hin|[]]]; discriminate.
  - destruct Hin as [Hin|[Hin|Hin]]; try discriminate.
    apply in_app_or in Hin. destruct Hin as [Hin|Hin];
      [exfalso; exact (Hno _ _ _ Hin)|].
    destruct Hin as [Hin|[]]. injection Hin as Hin. rewrite Hin.
    split; [reflexivity|].
    simpl. rewrite !filter_app, !embedCalls_filter by reflexivity.
    split; [reflexivity|]. split; [reflexivity|].
    eexists (_ :: _ :: embedCalls _ _ _). reflexivity.
  - destruct Hin as [Hin|[Hin|[]]]; discriminate.
  - destruct Hin as [Hin|[Hin|Hin]]; try discriminate.
    apply in_app_or in Hin. destruct Hin as [Hin|Hin];
      [exfalso; exact (Hno _ _ _ Hin)|].
    destruct Hin as [Hin|[]]. discriminate.
  - destruct Hin as [Hin|[Hin|Hin]]; try discriminate.
    apply in_app_or in Hin. destruct Hin as [Hin|Hin];
      [exfalso; exact (Hno _ _ _ Hin)|].
    destruct Hin as [Hin|Hin]; [discriminate|].
    destruct (Registration_in _ _ _ _ Hreg Hin) as [[? ?]|[? ?]];
      discriminate.
Qed.

Lemma embedding_failure_aborts_file_witness :
  fst (processSinglePDF Sim.services (js "doc/resume_jay.pdf")
         {| world := Scenario.rateLimited; trace := [] |}) = Ok None
  /\ filter isAdd
       (events (processSinglePDF Sim.services (js "doc/resume_jay.pdf"))
               {| world := Scenario.rateLimited; trace := [] |}) = []
  /\ filter isAppend
       (events (processSinglePDF Sim.services (js "doc/resume_jay.pdf"))
               {| world := Scenario.rateLimited; trace := [] |}) = []
  /\ exists before,
      events (processSinglePDF Sim.services (js "doc/resume_jay.pdf"))
             {| world := Scenario.rateLimited; trace := [] |}
      = before ++ [EvEmbed (js "Jay Patel is a software developer.") None].
Proof.
  apply (embedding_failure_aborts_file Sim.World Sim.services
           (js "doc/resume_jay.pdf")
           {| world := Scenario.rateLimited; trace := [] |}
           (js "Jay Patel is a software developer.")).
  vm_compute. do 2 right. left. reflexivity.
Defined.

(** ** The batch *)


Section Batch.

Context {W : Type} (env : Services W).


End Batch.


(** ** The walk of the document directory *)

Section Walk.

Context {W : Type} (env : Services W).

Lemma getAllFiles_lists (depth : nat) :
  forall (dirPath : jsstring) (files : list jsstring) (st : St W),
    Listing env (world st) depth dirPath files ->
    exists st',
      getAllFiles env depth dirPath st = (Ok files, st')
      /\ world st' = world st.
Proof.
  induction depth as [|depth IH]; intros dirPath files st H;
    [destruct H|].
  destruct H as (names & Hread & Hentries).
  destruct st as [w t]. simpl in *. unfold bind at 1. unfold call at 1.
  simpl. rewrite Hread.
  set (step := fun filePaths file =>
                 isDir <- call (fun r => EvStat (path_join env dirPath file)
                                                (is_ok r))
                               (statIsDirectory env
                                  (path_join env dirPath file)) ;;
                 if isDir : bool
                 then sub <- getAllFiles env depth
                                         (path_join env dirPath file) ;;
                      ret (filePaths ++ sub)
                 else ret (filePaths ++ [path_join env dirPath file])).
  assert (G : forall acc t1,
             exists st',
               foldM step names acc {| world := w; trace := t1 |}
               = (Ok (acc ++ files), st')
               /\ world st' = w).
  { clear Hread. induction Hentries as [|file names files Hstat _ IHe
                                        |file names sub files Hstat Hsub _
                                           IHe]; intros acc t1.
    - eexists. rewrite app_nil_r. split; reflexivity.
    - simpl. unfold bind at 1. unfold step at 1.
      unfold bind, call. simpl. rewrite Hstat. simpl.
      destruct (IHe (acc ++ [path_join env dirPath file])
                    (t1 ++ [EvStat (path_join env dirPath file) true]))
        as (st' & E & Hw).
      exists st'. rewrite E, <- app_assoc. split; [reflexivity | exact Hw].
    - simpl. unfold bind at 1. unfold step at 1.
      unfold bind, call. simpl. rewrite Hstat. simpl.
      destruct (IH (path_join env dirPath file) sub
                   {| world := w;
                      trace := t1 ++ [EvStat (path_join env dirPath file)
                                             true] |} Hsub)
        as ([w' t'] & E & Hw).
      simpl in Hw. subst w'. rewrite E. simpl.
      destruct (IHe (acc ++ sub) t') as (st' & E' & Hw').
      exists st'. rewrite E', <- app_assoc. split; [reflexivity | exact Hw']. }
  apply G.
Qed.

End Walk.

(** X16.  On a tree of directories that the file system reads without
    error and without change, nested less deep than the call stack allows,
    [getAllFiles] returns the paths of all the plain files of the tree,
    each built by joining the directory path and the entry name, walked
    depth first in the order the directories list their entries; the
    directories themselves are not in the result. *)
Theorem getAllFiles_walks_the_tree :
  forall (W : Type) (env : Services W) (depth : nat) (dirPath : jsstring)
         (files : list jsstring) (st : St W),
    Listing env (world st) depth dirPath files ->
    exists st',
      getAllFiles env depth dirPath st = (Ok files, st')
      /\ world st' = world st.
Proof. intros W env. apply getAllFiles_lists. Qed.

Lemma getAllFiles_walks_the_tree_witness :
  exists st',
    getAllFiles Sim.treeServices 2 (js "./doc")
      {| world := Scenario.twoFiles; trace := [] |}
    = (Ok [js "doc/cv/resume.pdf"; js "doc/notes.txt"], st')
    /\ world st' = Scenario.twoFiles.
Proof.
  apply (getAllFiles_walks_the_tree Sim.World Sim.treeServices 2
           (js "./doc") [js "doc/cv/resume.pdf"; js "doc/notes.txt"]
           {| world := Scenario.twoFiles; trace := [] |}).
  exists [js "cv"; js "notes.txt"].
  split; [reflexivity|].
  change (Entries Sim.treeServices Scenario.twoFiles
            (Listing Sim.treeServices Scenario.twoFiles 1) (js "./doc")
            [js "cv"; js "notes.txt"]
            ([path_join Sim.treeServices (js "doc/cv") (js "resume.pdf")]
             ++ [path_join Sim.treeServices (js "./doc")
                           (js "notes.txt")])).
  apply entries_directory; [reflexivity| |].
  - exists [js "resume.pdf"]. split; [reflexivity|].
    change (Entries Sim.treeServices Scenario.twoFiles
              (Listing Sim.treeServices Scenario.twoFiles 0)
              (path_join Sim.treeServices (js "./doc") (js "cv"))
              [js "resume.pdf"]
              [path_join Sim.treeServices
                         (path_join Sim.treeServices (js "./doc") (js "cv"))
                         (js "resume.pdf")]).
    apply entries_file; [reflexivity | apply entries_none].
  - apply entries_file; [reflexivity | apply entries_none].
Defined.

(** X17.  A failure to list the document directory is not caught: after
    the reset of the registry, [initialize] throws the error of
    [readdirSync], and no file is parsed or ingested. *)
Theorem initialize_throws_when_directory_unreadable :
  forall (W : Type) (env : Services W) (depth : nat) (st st1 : St W)
         (e : JsError) (w2 : W),
    clearCollectionsFile env st = (Ok tt, st1) ->
    readdirSync env (js "./doc") (world st1) = (Throw e, w2) ->
    initialize env (S depth) st
    = (Throw e,
       {| world := w2;
          trace := trace st1 ++ [EvReaddir (js "./doc") false] |}).
Proof.
  intros W env depth st st1 e w2 Hclear Hread.
  unfold initialize. unfold bind at 1. rewrite Hclear.
  unfold bind at 1. simpl. unfold bind at 1. unfold call at 1.
  rewrite Hread. reflexivity.
Qed.

Lemma initialize_throws_when_directory_unreadable_witness :
  initialize Sim.lockedServices 8
    {| world := Scenario.twoFiles; trace := [] |}
  = (Throw Sim.EACCES,
     {| world := Scenario.twoFiles;
        trace := [] ++ [EvReaddir (js "./doc") false] |}).
Proof.
  apply (initialize_throws_when_directory_unreadable Sim.World
           Sim.lockedServices 7
           {| world := Scenario.twoFiles; trace := [] |}
           {| world := Scenario.twoFiles; trace := [] |}
           Sim.EACCES Scenario.twoFiles); reflexivity.
Defined.

(** ** An empty, missing or unreadable registry *)

(** X18.  A registry that is not there, that cannot be read, or that
    holds nothing but white space reads as empty:
    [loadCollectionNames] then returns the empty list and does not throw;
    it reads the file only if the file exists. *)
Theorem loadCollectionNames_empty_cases :
  forall (W : Type) (env : Services W) (st : St W),
    (forall w1,
        existsSync env (collectionsFile env) (world st) = (false, w1) ->
        loadCollectionNames env st
        = (Ok [], {| world := w1; trace := trace st |}))
    /\ (forall w1 e w2,
           existsSync env (collectionsFile env) (world st) = (true, w1) ->
           readFileSync env (collectionsFile env) w1 = (Throw e, w2) ->
           loadCollectionNames env st
           = (Ok [],
              {| world := w2;
                 trace := trace st
                          ++ [EvRead (collectionsFile env) false] |}))
    /\ (forall w1 content w2,
           existsSync env (collectionsFile env) (world st) = (true, w1) ->
           readFileSync env (collectionsFile env) w1 = (Ok content, w2) ->
           forallb is_ws content = true ->
           loadCollectionNames env st
           = (Ok [],
              {| world := w2;
                 trace := trace st
                          ++ [EvRead (collectionsFile env) true] |})).
Proof.
  intros W env st. split; [|split].
  - intros w1 Hex. unfold loadCollectionNames. unfold_monad.
    rewrite Hex. reflexivity.
  - intros w1 e w2 Hex Hread. unfold loadCollectionNames. unfold_monad.
    rewrite Hex. simpl. rewrite Hread. reflexivity.
  - intros w1 content w2 Hex Hread Hws.
    unfold loadCollectionNames. unfold_monad.
    rewrite Hex. simpl. rewrite Hread. simpl.
    apply trim_all_ws in Hws. rewrite Hws. reflexivity.
Qed.

Lemma loadCollectionNames_empty_cases_witness :
  loadCollectionNames Sim.services
    {| world := Scenario.fresh; trace := [] |}
  = (Ok [], {| world := Scenario.fresh; trace := [] |}).
Proof.
  apply (proj1 (loadCollectionNames_empty_cases Sim.World Sim.services
                  {| world := Scenario.fresh; trace := [] |})).
  reflexivity.
Defined.

(** X19.  When the registry reads as empty, a search returns no result
    and a question gets the fixed not-found message, in the state the read
    of the registry left: no collection is looked up, no embedding is
    computed, nothing is queried and nothing is generated. *)
Theorem empty_registry_answers_not_found :
  forall (W : Type) (env : Services W) (question : jsstring) (topK : Z)
         (st st0 : St W),
    loadCollectionNames env st = (Ok [], st0) ->
    searchAllCollections env question topK st = (Ok [], st0)
    /\ handleUserQuestion env question st = (Ok notFoundMessage, st0).
Proof.
  intros W env question topK st st0 Hload.
  assert (Hsearch : forall k,
             searchAllCollections env question k st = (Ok [], st0)).
  { intros k. unfold searchAllCollections, try_catch, bind.
    rewrite Hload. simpl. unfold slice0. rewrite firstn_nil. reflexivity. }
  split; [apply Hsearch|].
  unfold handleUserQuestion, try_catch, bind. rewrite Hsearch. reflexivity.
Qed.

Lemma empty_registry_answers_not_found_witness :
  searchAllCollections Sim.services (js "Where did Jay study?") 3
    {| world := Scenario.fresh; trace := [] |}
  = (Ok [], {| world := Scenario.fresh; trace := [] |})
  /\ handleUserQuestion Sim.services (js "Where did Jay study?")
       {| world := Scenario.fresh; trace := [] |}
     = (Ok notFoundMessage, {| world := Scenario.fresh; trace := [] |}).
Proof.
  apply (empty_registry_answers_not_found Sim.World Sim.services).
  reflexivity.
Defined.

(** ** What a search returns *)

Section SearchResults.

Context {W : Type} (env : Services W).

Variable query : jsstring.
Variable topK : Z.

Lemma queryCollection_tags (collectionInfo : CollectionInfo) (st : St W)
      (found : list SearchResult) (st' : St W) :
  queryCollection env query topK collectionInfo st = (Ok found, st') ->
  forall r, In r found ->
            collection r = name collectionInfo
            /\ result_source r = info_source collectionInfo.
Proof.
  unfold queryCollection, createEmbedding. unfold_monad.
  destruct (getCollection env _ (world st)) as [[coll|e] w1]; simpl;
    [|discriminate].
  destruct (embeddings_create env query w1) as [[emb|e] w2]; simpl;
    [|discriminate].
  destruct (collection_query env coll emb topK w2) as [[results|e] w3];
    simpl; [|discriminate].
  destruct results as [[|h hs]|]; simpl; intros [= <- _] r Hin;
    try contradiction.
  change (In r (map (fun hit =>
                       {| document := hit_document hit;
                          distance := hit_distance hit;
                          metadata := hit_metadata hit;
                          result_source := info_source collectionInfo;
                          collection := name collectionInfo |})
                    (h :: hs))) in Hin.
  apply in_map_iff in Hin. destruct Hin as (hit & <- & _).
  split; reflexivity.
Qed.

Lemma searchLoop_tags (collections : list CollectionInfo) :
  forall acc st allResults st',
    foldM (fun allResults collectionInfo =>
             try_catch
               (resultsWithSource <-
                  queryCollection env query topK collectionInfo ;;
                ret (allResults ++ resultsWithSource))
               (fun _ => ret allResults))
          collections acc st
    = (Ok allResults, st') ->
    forall r, In r allResults ->
              In r acc
              \/ exists collectionInfo,
                  In collectionInfo collections
                  /\ collection r = name collectionInfo
                  /\ result_source r = info_source collectionInfo.
Proof.
  induction collections as [|ci collections IH];
    intros acc st allResults st'; simpl.
  - intros [= <- _] r Hin. left. exact Hin.
  - unfold bind at 1. unfold try_catch at 1. unfold bind at 1.
    destruct (queryCollection env query topK ci st) as [[found|e] st1]
      eqn:Eq; simpl; intros Hrest r Hin.
    + destruct (IH _ _ _ _ Hrest r Hin) as [Hacc|(ci' & Hci & Htag)].
      * apply in_app_or in Hacc. destruct Hacc as [Hacc|Hfound];
          [left; exact Hacc|].
        right. exists ci. split; [left; reflexivity|].
        exact (queryCollection_tags ci st found st1 Eq r Hfound).
      * right. exists ci'. split; [right; exact Hci | exact Htag].
    + destruct (IH _ _ _ _ Hrest r Hin) as [Hacc|(ci' & Hci & Htag)];
        [left; exact Hacc|].
      right. exists ci'. split; [right; exact Hci | exact Htag].
Qed.

End SearchResults.

Lemma slice0_incl {A : Type} (e : Z) (l : list A) (x : A) :
  In x (slice0 e l) -> In x l.
Proof.
  unfold slice0. intros Hin.
  rewrite <- (firstn_skipn (Z.to_nat
                              (if (e <? 0)%Z
                               then Z.max (Z.of_nat (length l) + e) 0
                               else Z.min e (Z.of_nat (length l)))) l).
  apply in_or_app. left. exact Hin.
Qed.

(** X20.  Every result of a federated search is tagged with a collection
    of the registry: its [collection] is the name of a record read from
    the registry, and its [source] the source of that same record. *)
Theorem search_results_are_tagged :
  forall (W : Type) (env : Services W) (query : jsstring) (topK : Z)
         (st st0 st' : St W) (collections : list CollectionInfo)
         (results : list SearchResult),
    loadCollectionNames env st = (Ok collections, st0) ->
    searchAllCollections env query topK st = (Ok results, st') ->
    forall r,
      In r results ->
      exists collectionInfo,
        In collectionInfo collections
        /\ collection r = name collectionInfo
        /\ result_source r = info_source collectionInfo.
Proof.
  intros W env query topK st st0 st' collections results Hload Hsearch r
         Hin.
  revert Hsearch. unfold searchAllCollections, try_catch, bind.
  rewrite Hload. unfold searchLoop.
  destruct (foldM _ collections [] st0) as [[allResults|e] st1] eqn:Eloop;
    simpl; [|discriminate].
  intros [= <- _].
  apply slice0_incl in Hin.
  apply (Permutation_in _ (Permutation_sym (sort_perm _ allResults)))
    in Hin.
  destruct (searchLoop_tags env query topK collections _ _ _ _ Eloop r Hin)
    as [[]|H]. exact H.
Qed.

Lemma search_results_are_tagged_witness :
  exists collectionInfo,
    In collectionInfo
       (map infoOf
            [(js "doc_cv_1_aaaaaa", js "document:cv_jay.pdf");
             (js "doc_projects_2_bbbbbb", js "document:projects.pdf")])
    /\ collection Scenario.nearest = name collectionInfo
    /\ result_source Scenario.nearest = info_source collectionInfo.
Proof.
  apply (search_results_are_tagged Sim.World Sim.services (js "education")
           3 {| world := Scenario.two; trace := [] |}
           (snd (loadCollectionNames Sim.services
                   {| world := Scenario.two; trace := [] |}))
           (snd (searchAllCollections Sim.services (js "education") 3
                   {| world := Scenario.two; trace := [] |}))
           (map infoOf
                [(js "doc_cv_1_aaaaaa", js "document:cv_jay.pdf");
                 (js "doc_projects_2_bbbbbb", js "document:projects.pdf")])
           (match fst (searchAllCollections Sim.services (js "education") 3
                         {| world := Scenario.two; trace := [] |}) with
            | Ok results => results
            | Throw _ => []
            end)).
  - vm_compute. reflexivity.
  - vm_compute. reflexivity.
  - vm_compute. left. reflexivity.
Defined.



(** ** The generation call *)

Lemma Visits_no_generation (query : jsstring) (topK : Z)
      (names : list jsstring) (evs : list Event) :
  Visits query topK names evs -> filter isGenerate evs = [].
Proof.
  induction 1 as [|nm names evs1 evs2 V1 V2 IH]; [reflexivity|].
  rewrite filter_app, IH. destruct V1; reflexivity.
Qed.

(** X22.  To answer a question, the generation service is called at most
    once: not at all when the search returns nothing, and otherwise
    exactly once, after the search, with the user's question as it was
    asked and the system prompt built from the results of the search. *)
Theorem handleUserQuestion_generates_once :
  forall (W : Type) (env : Services W) (question : jsstring) (st : St W),
  exists searchResults st1,
    searchAllCollections env question defaultTopK st
    = (Ok searchResults, st1)
    /\ (searchResults = [] ->
        filter isGenerate (events (handleUserQuestion env question) st)
        = [])
    /\ (searchResults <> [] ->
        exists content before,
          events (handleUserQuestion env question) st
          = before ++ [EvGenerate (systemPromptOf env searchResults)
                                  question content]
          /\ filter isGenerate before = []).
Proof.
  intros W env question st.
  destruct (searchAllCollections_runs env question defaultTopK st)
    as (collections & evs0 & st0 & allResults & evs1 & st1
        & _ & H0 & _ & V & R).
  set (searchResults :=
         slice0 (defaultTopK * 2)
                (sort (fun a b => (distance a - distance b)%Q) allResults))
    in *.
  assert (Hnone : filter isGenerate (evs0 ++ evs1) = []).
  { rewrite filter_app, (Visits_no_generation _ _ _ _ V).
    destruct H0 as [->|[ok ->]]; reflexivity. }
  exists searchResults, st1. split; [apply R|].
  destruct searchResults as [|x xs] eqn:E.
  - split; [|congruence]. intros _.
    assert (Rh : runs (handleUserQuestion env question) st
                      (Ok notFoundMessage) ((evs0 ++ evs1) ++ []) st1).
    { unfold handleUserQuestion. apply runs_try_ok.
      eapply runs_bind; [exact R|]. simpl. apply runs_ret. }
    rewrite (runs_events _ _ _ _ _ Rh), app_nil_r. exact Hnone.
  - split; [congruence|]. intros _.
    destruct (generateResponse_runs env question (x :: xs) st1)
      as (r2 & evs2 & st2 & R2 & ->).
    exists (value_of r2), (evs0 ++ evs1). split; [|exact Hnone].
    destruct r2 as [content|e].
    + assert (Rh : runs (handleUserQuestion env question) st (Ok content)
                        ((evs0 ++ evs1)
                         ++ [EvGenerate (systemPromptOf env (x :: xs))
                                        question (Some content)]) st2).
      { unfold handleUserQuestion. apply runs_try_ok.
        eapply runs_bind; [exact R|]. exact R2. }
      rewrite (runs_events _ _ _ _ _ Rh). reflexivity.
    + assert (Rh : runs (handleUserQuestion env question) st
                        (Ok apologyMessage)
                        (((evs0 ++ evs1)
                          ++ [EvGenerate (systemPromptOf env (x :: xs))
                                         question None]) ++ []) st2).
      { unfold handleUserQuestion.
        eapply runs_try_catch; [|apply runs_ret].
        eapply runs_bind; [exact R|]. exact R2. }
      rewrite (runs_events _ _ _ _ _ Rh), app_nil_r. reflexivity.
Qed.

(** ** The statuses of the two routes *)

(** X23.  For a request that has a body, the backend route never throws
    and answers either 200 or 400, never 500: 200 with the answer exactly
    when the question is a string that is not empty, 400 exactly when it
    is missing, falsy or not a string. *)
Theorem api_ask_status :
  forall (W : Type) (env : Services W) (question : JsValue) (st : St W),
  exists response st',
    api_ask env (Body question) st = (Ok response, st')
    /\ ((status response = 200%Z
         /\ exists q answer,
             question = JString q /\ q <> []
             /\ body response = AnswerBody answer
             /\ fst (handleUserQuestion env q st) = Ok answer)
        \/ (status response = 400%Z
            /\ (falsy question = true \/ not_a_string question = true)
            /\ st' = st)).
Proof.
  intros W env question st.
  destruct (falsy question || not_a_string question) eqn:E.
  - apply orb_true_iff in E.
    rewrite (api_ask_rejects env question st E).
    do 2 eexists. split; [reflexivity|]. right. auto.
  - apply orb_false_iff in E. destruct E as [Hf Hs].
    destruct question as [| | | |q|]; try discriminate.
    assert (Hq : q <> []) by (intros ->; discriminate).
    destruct (api_ask_answers env q st Hq) as (answer & st' & Eh & Ea).
    rewrite Ea. do 2 eexists. split; [reflexivity|]. left.
    split; [reflexivity|]. exists q, answer. rewrite Eh. auto.
Qed.

(** X24.  The frontend route never throws and answers 200, 400 or 500.
    It answers 400 exactly when the body is a value other than [null]
    whose question is missing, falsy, or a string of white space; 500
    exactly when the body is not valid JSON, when it is the JSON value
    [null], when the question is a truthy value that is not a string, or
    when the call to the backend fails; and 200 otherwise. *)
Theorem POST_status :
  forall (W : Type) (env : Services W) (request : Request) (st : St W),
  exists response st',
    POST env request st = (Ok response, st')
    /\ (status response = 200%Z \/ status response = 400%Z
        \/ status response = 500%Z)
    /\ (status response = 400%Z <->
        exists question,
          request = Body question
          /\ (falsy question = true
              \/ exists q, question = JString q /\ blank q))
    /\ (status response = 500%Z <->
        request = BadJson
        \/ request = NullJson
        \/ (exists question,
               request = Body question /\ falsy question = false
               /\ not_a_string question = true)
        \/ (exists q e w,
               request = Body (JString q) /\ ~ blank q
               /\ http_hop env (world st) = (Throw e, w))).
Proof.
  intros W env request st.
  destruct request as [| |question].
  { do 2 eexists. split; [reflexivity|]. simpl.
    split; [auto|]. split.
    - split; [discriminate | intros (? & ? & _); discriminate].
    - split; auto. }
  { do 2 eexists. split; [reflexivity|]. simpl.
    split; [auto|]. split.
    - split; [discriminate | intros (? & ? & _); discriminate].
    - split; auto. }
  destruct (falsy question) eqn:Hf.
  { rewrite (POST_rejects env question st (or_introl Hf)).
    do 2 eexists. split; [reflexivity|]. simpl.
    split; [auto|]. split.
    - split; [intros _; exists question; auto | reflexivity].
    - split; [discriminate|].
      intros [H|[H|[(q' & [= <-] & Hf' & _)|(q & e & w & [= ->] & Hb & _)]]];
        try discriminate; try congruence.
      exfalso. apply Hb. destruct q; [reflexivity | discriminate]. }
  destruct question as [| |b|n|q|]; try discriminate.
  - do 2 eexists. split; [unfold POST, try_catch; rewrite Hf; reflexivity|].
    simpl. split; [auto|]. split.
    + split; [discriminate|].
      intros (q' & [= <-] & [H|(q & H & _)]); congruence.
    + split; auto. intros _. right. right. left. eexists. auto.
  - do 2 eexists. split; [unfold POST, try_catch; rewrite Hf; reflexivity|].
    simpl. split; [auto|]. split.
    + split; [discriminate|].
      intros (q' & [= <-] & [H|(q & H & _)]); congruence.
    + split; auto. intros _. right. right. left. eexists. auto.
  - destruct (jseqb (trim q) []) eqn:Hb.
    + apply jseqb_eq in Hb.
      rewrite (POST_rejects env (JString q) st
                 (or_intror (ex_intro _ q (conj eq_refl Hb)))).
      do 2 eexists. split; [reflexivity|]. simpl.
      split; [auto|]. split.
      * split; [intros _; exists (JString q); eauto | reflexivity].
      * split; [discriminate|].
        intros [H|[H|[(q' & [= <-] & _ & H)|(q' & e & w & [= <-] & Hn & _)]]];
          try discriminate. contradiction.
    + assert (Hn : ~ blank q).
      { intros H. unfold blank in H. rewrite H in Hb. discriminate. }
      destruct (http_hop env (world st)) as [[[]|e] w1] eqn:Hhop.
      * destruct (POST_answers env q st w1 Hn Hhop)
          as (answer & st' & _ & E).
        rewrite E. do 2 eexists. split; [reflexivity|]. simpl.
        split; [auto|]. split.
        -- split; [discriminate|].
           intros (q' & [= <-] & [H|(q'' & [= <-] & H)]);
             [congruence | contradiction].
        -- split; [discriminate|].
           intros [H|[H|[(q' & [= <-] & _ & H)|(q' & e & w & _ & _ & H)]]];
             discriminate.
      * rewrite (POST_unreachable env q st e w1 Hn Hhop).
        do 2 eexists. split; [reflexivity|]. simpl.
        split; [auto|]. split.
        -- split; [discriminate|].
           intros (q' & [= <-] & [H|(q'' & [= <-] & H)]);
             [congruence | contradiction].
        -- split; auto. intros _. right. right. right. exists q, e, w1. auto.
  - do 2 eexists. split; [unfold POST, try_catch; rewrite Hf; reflexivity|].
    simpl. split; [auto|]. split.
    + split; [discriminate|].
      intros (q' & [= <-] & [H|(q & H & _)]); congruence.
    + split; auto. intros _. right. right. left. eexists. auto.
Qed.
